(** * The staged command orchestrator of the [neverest] manager module

    A shallow embedding of [CommandsRequest] and of the parts of [Module]
    (src/pybind/mgr/neverest/module.py) and [Request]
    (src/pybind/mgr/neverest/api.py) that track batches of commands.

    Python objects that are mutated in place and shared by reference (the
    [CommandsRequest] instances held in [Module.requests]) live in a store
    keyed by their identity [id(self)]; [Module.requests] is a list of such
    references.  Every method is a computation in a state-and-exception
    monad over the whole manager state, so that a mutation made before an
    exception is raised stays visible afterwards, as in Python.

    Left out: the per-batch [RLock] and the threads (calls are taken one at
    a time), the text of the log messages that print whole objects, and
    [json.dumps], taken to succeed on every payload.  Object identities are
    handed out from a counter, so they are never reused. *)

From Stdlib Require Import Ascii.
From stdpp Require Import base list strings pretty gmap.

Open Scope string_scope.
Open Scope list_scope.
Open Scope nat_scope.

(** ** Exceptions and the monad *)

(** The exceptions the modelled code can raise. *)
Inductive exn : Type :=
  | SendError                        (* raised by [instance.send_command] *)
  | UnboundLocalError (name : string) (* a local variable read before assignment *)
  | IndexError                       (* list index out of range *)
  | DanglingReference.               (* a reference outside the store: never built by the code *)

Inductive Res (A : Type) : Type :=
  | Ok (a : A)
  | Raise (e : exn).
Arguments Ok {A} a.
Arguments Raise {A} e.

Definition M (St A : Type) : Type := St → Res A * St.

Global Instance M_ret {St} : MRet (M St) := λ A a σ, (Ok a, σ).

Global Instance M_bind {St} : MBind (M St) := λ A B f m σ,
  match m σ with
  | (Ok a, σ') => f a σ'
  | (Raise e, σ') => (Raise e, σ')
  end.

Global Instance M_fmap {St} : FMap (M St) := λ A B f m σ,
  match m σ with
  | (Ok a, σ') => (Ok (f a), σ')
  | (Raise e, σ') => (Raise e, σ')
  end.

Definition raise {St A} (e : exn) : M St A := λ σ, (Raise e, σ).

(** [try: m except: handler] with a bare [except], which catches everything. *)
Definition try_except {St A} (m : M St A) (handler : exn → M St A) : M St A :=
  λ σ, match m σ with
       | (Ok a, σ') => (Ok a, σ')
       | (Raise e, σ') => handler e σ'
       end.

Definition gets {St A} (f : St → A) : M St A := λ σ, (Ok (f σ), σ).
Definition modify {St} (f : St → St) : M St unit := λ σ, (Ok tt, f σ).

(** The state a computation leaves behind, whatever its result. *)
Definition exec {St A} (m : M St A) (σ : St) : St := (m σ).2.

(** A colon somewhere in the string. *)
Fixpoint has_colon (s : string) : bool :=
  match s with
  | EmptyString => false
  | String c s' => bool_decide (c = ":"%char) || has_colon s'
  end.

Section Neverest.

(** A command is an opaque payload: the orchestrator only passes it on. *)
Context {Command : Type}.

(** [CommandResult] comes from [mgr_module], which is outside the modelled
    sources; only the three attributes the orchestrator touches are kept.
    [r_init] is the value of [r] that its constructor leaves before the
    control plane reports an outcome. *)
Variable r_init : Z.

Record CommandResult : Type := mkCommandResult {
  tag : string;
  command : Command;
  r : Z;
}.

Definition set_r (v : Z) (x : CommandResult) : CommandResult :=
  {| tag := tag x; command := command x; r := v |}.

(** ** The batch object *)

Record CommandsRequest : Type := mkCommandsRequest {
  uuid : string;
  running : list CommandResult;
  waiting : list (list Command);
  finished : list CommandResult;
  failed : list CommandResult;
}.

Definition set_running (v : list CommandResult) (b : CommandsRequest) :=
  {| uuid := uuid b; running := v; waiting := waiting b;
     finished := finished b; failed := failed b |}.
Definition set_waiting (v : list (list Command)) (b : CommandsRequest) :=
  {| uuid := uuid b; running := running b; waiting := v;
     finished := finished b; failed := failed b |}.
Definition set_finished (v : list CommandResult) (b : CommandsRequest) :=
  {| uuid := uuid b; running := running b; waiting := waiting b;
     finished := v; failed := failed b |}.
Definition set_failed (v : list CommandResult) (b : CommandsRequest) :=
  {| uuid := uuid b; running := running b; waiting := waiting b;
     finished := finished b; failed := v |}.

(** ** The manager state *)

Inductive LogRecord : Type :=
  | LogError (e : exn)        (* [log.error(str(traceback.format_exc()))] *)
  | LogWarn (msg : string)
  | LogDebug (msg : string).

Record Mgr : Type := mkMgr {
  (** what [instance.log] has received, oldest first *)
  log : list LogRecord;
  (** the (tag, payload) pairs handed to the control plane, oldest first *)
  sent : list (string * Command);
  (** the behaviour of the coming [send_command] calls, one entry per call:
      [true] when the call raises; calls beyond the schedule succeed *)
  faults : list bool;
  (** the next object identity [id(self)] to hand out *)
  next_id : N;
  (** the [CommandsRequest] objects, by identity *)
  heap : gmap N CommandsRequest;
  (** [Module.requests]: references into the store *)
  requests : list N;
}.

Definition set_log v (σ : Mgr) : Mgr :=
  {| log := v; sent := sent σ; faults := faults σ; next_id := next_id σ;
     heap := heap σ; requests := requests σ |}.
Definition set_sent v (σ : Mgr) : Mgr :=
  {| log := log σ; sent := v; faults := faults σ; next_id := next_id σ;
     heap := heap σ; requests := requests σ |}.
Definition set_faults v (σ : Mgr) : Mgr :=
  {| log := log σ; sent := sent σ; faults := v; next_id := next_id σ;
     heap := heap σ; requests := requests σ |}.
Definition set_next_id v (σ : Mgr) : Mgr :=
  {| log := log σ; sent := sent σ; faults := faults σ; next_id := v;
     heap := heap σ; requests := requests σ |}.
Definition set_heap v (σ : Mgr) : Mgr :=
  {| log := log σ; sent := sent σ; faults := faults σ; next_id := next_id σ;
     heap := v; requests := requests σ |}.
Definition set_requests v (σ : Mgr) : Mgr :=
  {| log := log σ; sent := sent σ; faults := faults σ; next_id := next_id σ;
     heap := heap σ; requests := v |}.

Definition log_error (e : exn) : M Mgr unit :=
  modify (λ σ, set_log (log σ ++ [LogError e]) σ).
Definition log_warn (msg : string) : M Mgr unit :=
  modify (λ σ, set_log (log σ ++ [LogWarn msg]) σ).
Definition log_debug (msg : string) : M Mgr unit :=
  modify (λ σ, set_log (log σ ++ [LogDebug msg]) σ).

(** Reading and writing the attributes of the object behind a reference. *)
Definition get_obj (self : N) : M Mgr CommandsRequest :=
  λ σ, match heap σ !! self with
       | Some b => (Ok b, σ)
       | None => (Raise DanglingReference, σ)
       end.

Definition update_obj (self : N) (f : CommandsRequest → CommandsRequest) : M Mgr unit :=
  b ← get_obj self; modify (λ σ, set_heap (<[self := f b]> (heap σ)) σ).

(** Modelled from the spec: [MgrModule.send_command] is not among the
    sources; it is the Dispatcher's send primitive [Send(payload, tag)],
    which hands the command over and returns at once, and which may throw.
    Whether a given call throws is read off the schedule [faults]. *)
Definition send_command (result : CommandResult) (payload : Command) (tag : string)
  : M Mgr unit :=
  λ σ, match faults σ with
       | true :: rest => (Raise SendError, set_faults rest σ)
       | false :: rest => (Ok tt, set_sent (sent σ ++ [(tag, payload)]) (set_faults rest σ))
       | [] => (Ok tt, set_sent (sent σ ++ [(tag, payload)]) σ)
       end.

(** ** [CommandsRequest] *)

(** The body of the loop of [run], from position [index] on, with the
    commands still to visit and the [results] gathered so far. *)
Fixpoint run_loop (commands : list Command) (index : nat) (uuid : string)
    (results : list CommandResult) : M Mgr (list CommandResult) :=
  match commands with
  | [] => mret results
  | c :: commands' =>
      let tag := uuid +:+ ":" +:+ pretty index in
      let result := {| tag := tag; command := c; r := r_init |} in
      let results := results ++ [result] in
      send_command result c tag;;
      run_loop commands' (S index) uuid results
  end.

Definition run (commands : list Command) (uuid : string) : M Mgr (list CommandResult) :=
  run_loop commands 0 uuid [].

(** [__init__] on the fresh object [self]; [results] is the local variable
    of that name, [None] while it is unbound. *)
Definition CommandsRequest_init (self : N) (commands_arrays : list (list Command))
  : M Mgr unit :=
  let uuid := pretty self in
  modify (λ σ, set_heap (<[self := {| uuid := uuid; running := [];
                                      waiting := drop 1 commands_arrays;
                                      finished := []; failed := [] |}]> (heap σ)) σ);;
  match commands_arrays with
  | [] => mret tt
  | first :: _ =>
      results ← try_except (Some <$> run first uuid)
                           (λ e, log_error e;; mret None);
      match results with
      | Some results =>
          update_obj self (λ b, set_running (running b ++ results) b)
      | None => raise (UnboundLocalError "results")
      end
  end.

(** [CommandsRequest(commands_arrays)]: allocation, then [__init__]. *)
Definition CommandsRequest_new (commands_arrays : list (list Command)) : M Mgr N :=
  self ← gets next_id;
  modify (λ σ, set_next_id (N.succ self) σ);;
  CommandsRequest_init self commands_arrays;;
  mret self.

Definition next (self : N) : M Mgr unit :=
  b ← get_obj self;
  match waiting b with
  | [] => mret tt
  | commands :: rest =>
      update_obj self (set_waiting rest);;
      results ← run commands (uuid b);
      update_obj self (λ b, set_running (running b ++ results) b)
  end.

(** The loop of [finish]: [n] iterations are left, the next one looks at
    [self.running[index]]. *)
Fixpoint finish_loop (n index : nat) (self : N) (tag0 : string) : M Mgr bool :=
  match n with
  | O => mret false
  | S n' =>
      b ← get_obj self;
      match running b !! index with
      | None => raise IndexError
      | Some x =>
          if decide (tag x = tag0) then
            (if decide (r x = 0%Z) then
               update_obj self (λ b, set_finished (finished b ++ [x])
                                       (set_running (delete index (running b)) b))
             else
               update_obj self (λ b, set_failed (failed b ++ [x])
                                       (set_running (delete index (running b)) b)));;
            mret true
          else finish_loop n' (S index) self tag0
      end
  end.

Definition finish (self : N) (tag0 : string) : M Mgr bool :=
  b ← get_obj self;
  finish_loop (length (running b)) 0 self tag0.

Definition is_running (b : CommandsRequest) (tag0 : string) : bool :=
  existsb (λ result, bool_decide (tag result = tag0)) (running b).

Definition truthy {A} (l : list A) : bool :=
  match l with [] => false | _ => true end.

Definition is_ready (b : CommandsRequest) : bool :=
  negb (truthy (running b)) && truthy (waiting b).

Definition is_waiting (b : CommandsRequest) : bool := truthy (waiting b).

Definition is_finished (b : CommandsRequest) : bool :=
  negb (truthy (running b)) && negb (truthy (waiting b)).

Definition has_failed (b : CommandsRequest) : bool := truthy (failed b).

Definition get_state (b : CommandsRequest) : string :=
  if negb (is_finished b) then "pending"
  else if has_failed b then "failed"
  else "success".

(** ** [Module]: the registry of batches and the notification router *)

(** [p] evaluated on the object behind the reference [x]. *)
Definition holds (σ : Mgr) (p : CommandsRequest → bool) (x : N) : bool :=
  from_option p false (heap σ !! x).

Definition submit_request (request : list (list Command)) : M Mgr string :=
  self ← CommandsRequest_new request;
  modify (λ σ, set_requests (requests σ ++ [self]) σ);;
  b ← get_obj self;
  mret (uuid b).

Definition _notify (notify_type tag0 : string) : M Mgr unit :=
  if decide (notify_type = "command") then
    log_warn ("Processing request '" +:+ tag0 +:+ "'");;
    request ← gets (λ σ, filter (λ x, holds σ (λ b, is_running b tag0) x) (requests σ));
    log_warn "Requests";;
    if decide (length request ≠ 1) then
      log_warn ("Unknown request '" +:+ tag0 +:+ "'")
    else
      match request with
      | [] => raise IndexError
      | request :: _ =>
          finish request tag0;;
          log_warn "RUNNING Requests";;
          log_warn "WAITING Requests";;
          log_warn "FINISHED Requests";;
          b ← get_obj request;
          if is_ready b then next request else mret tt
      end
  else
    log_debug ("Unhandled notification type '" +:+ notify_type +:+ "'").

Definition notify (notify_type tag0 : string) : M Mgr unit :=
  try_except (_notify notify_type tag0) (λ e, log_error e).

(** Modelled from the spec: the control-plane binding is not among the
    sources.  It reports the outcome of a dispatched command by storing the
    return code in the [CommandResult] it was handed at dispatch
    ([complete]), and then invokes the completion callback with that
    command's tag ([OnCompletion]).  The object is named by its owner
    [self] and its position [index] in [running]; an object that is not in
    [running] any more is out of the orchestrator's sight. *)
Definition complete (self : N) (index : nat) (rv : Z) : M Mgr unit :=
  update_obj self (λ b, set_running (alter (set_r rv) index (running b)) b).

Definition OnCompletion (self : N) (index : nat) (rv : Z) : M Mgr unit :=
  b ← get_obj self;
  match running b !! index with
  | None => mret tt
  | Some x => complete self index rv;; notify "command" (tag x)
  end.

(** The calls that reach one batch once it is built, and a run of them.
    An exception a call raises ends that call only: whoever calls [finish]
    and [next] does so under [notify], which catches everything. *)
Inductive call : Type :=
  | Complete (index : nat) (rv : Z)
  | Finish (tag0 : string)
  | Next.

Definition do_call (self : N) (c : call) : M Mgr unit :=
  match c with
  | Complete index rv => complete self index rv
  | Finish tag0 => finish self tag0;; mret tt
  | Next => next self
  end.

Definition do_calls (self : N) (cs : list call) (σ : Mgr) : Mgr :=
  foldl (λ σ c, exec (do_call self c) σ) σ cs.

(** [Module.__init__]: no batch yet.  [fs] is the behaviour of the control
    plane's coming sends, and object identities are handed out from 0. *)
Definition Module_init (fs : list bool) : Mgr :=
  {| log := []; sent := []; faults := fs; next_id := 0; heap := ∅; requests := [] |}.

(** The module once [request] has been submitted to a fresh one. *)
Definition submitted (fs : list bool) (request : list (list Command)) : Mgr :=
  exec (submit_request request) (Module_init fs).

(** ** [api.Request] *)

(** The decorator [catch]: the value of [f], or the error it logged. *)
Definition catch {A} (f : M Mgr A) : M Mgr (A + exn) :=
  try_except (inl <$> f) (λ e, log_error e;; mret (inr e)).

Definition Request_delete : M Mgr (Z + exn) :=
  catch (
    num_requests ← gets (λ σ, length (requests σ));
    modify (λ σ, set_requests
                   (filter (λ x, negb (holds σ is_finished x)) (requests σ)) σ);;
    remaining ← gets (λ σ, length (requests σ));
    mret (Z.of_nat num_requests - Z.of_nat remaining)%Z).

(** ** The vocabulary of the statements *)

(** The invocations a dispatch of [commands] builds, position by position. *)
Fixpoint stage_results (uuid : string) (index : nat) (commands : list Command)
  : list CommandResult :=
  match commands with
  | [] => []
  | c :: commands' =>
      {| tag := uuid +:+ ":" +:+ pretty index; command := c; r := r_init |}
        :: stage_results uuid (S index) commands'
  end.

(** None of the next [n] calls of [send_command] raises. *)
Definition sends_ok (n : nat) (fs : list bool) : bool := forallb negb (take n fs).

(** No coming call of [send_command] raises. *)
Definition fault_free (σ : Mgr) : bool := forallb negb (faults σ).

(** The batch once [running[index]], which is [x], has been moved out. *)
Definition resolved (b : CommandsRequest) (index : nat) (x : CommandResult)
  : CommandsRequest :=
  if decide (r x = 0%Z) then
    set_finished (finished b ++ [x]) (set_running (delete index (running b)) b)
  else
    set_failed (failed b ++ [x]) (set_running (delete index (running b)) b).

(** The registered batches that claim the tag [tag0]: the list that
    [_notify] filters out of [Module.requests]. *)
Definition claimants (σ : Mgr) (tag0 : string) : list N :=
  filter (λ x, holds σ (λ b, is_running b tag0) x) (requests σ).

(** The commands a batch keeps track of: those of [running], [finished] and
    [failed], and those of the stages still in [waiting]. *)
Definition tracked (b : CommandsRequest) : list Command :=
  map command (running b) ++ map command (finished b)
    ++ map command (failed b) ++ concat (waiting b).

(** The invariant: no send is going to raise, and the batch behind [self]
    tracks exactly the commands [cmds]. *)
Definition accounted (cmds : list Command) (self : N) (σ : Mgr) : Prop :=
  fault_free σ = true ∧ ∃ b, heap σ !! self = Some b ∧ tracked b ≡ₚ cmds.

(** ** Running a computation step by step *)

Lemma bind_ok {St A B} (m : M St A) (f : A → M St B) σ a σ' :
  m σ = (Ok a, σ') → (m ≫= f) σ = f a σ'.
Proof. intros H. unfold mbind, M_bind. by rewrite H. Qed.

(** One step of a sequence whose first computation evaluates by itself. *)
Ltac mstep := erewrite bind_ok by reflexivity.

(** ** Dispatching a stage *)

Lemma stage_results_commands uuid index commands :
  map command (stage_results uuid index commands) = commands.
Proof. revert index. induction commands as [|c cs IH]; intros; simpl; [done|by rewrite IH]. Qed.

Lemma stage_results_lookup uuid index commands i x :
  stage_results uuid index commands !! i = Some x →
  tag x = uuid +:+ ":" +:+ pretty (index + i) ∧ commands !! i = Some (command x) ∧ r x = r_init.
Proof.
  revert index i. induction commands as [|c cs IH]; intros index i; simpl; [done|].
  destruct i as [|i]; simpl.
  - intros [= <-]. simpl. by rewrite Nat.add_0_r.
  - intros H. apply IH in H. by rewrite Nat.add_succ_r.
Qed.

Lemma run_loop_ok commands : ∀ index uuid acc σ,
  sends_ok (length commands) (faults σ) = true →
  run_loop commands index uuid acc σ
  = (Ok (acc ++ stage_results uuid index commands),
     set_sent (sent σ ++ map (λ x, (tag x, command x)) (stage_results uuid index commands))
       (set_faults (drop (length commands) (faults σ)) σ)).
Proof.
  induction commands as [|c cs IH]; intros index uuid acc σ Hok.
  - simpl. rewrite !app_nil_r. by destruct σ.
  - simpl. unfold mbind, M_bind, send_command.
    destruct σ as [lg st fs nid hp rq]. simpl in *.
    destruct fs as [|[] fs]; simpl in *; try done.
    + rewrite IH by (simpl; by destruct (length cs)).
      simpl. rewrite <-!app_assoc. simpl. by rewrite drop_nil.
    + rewrite IH by done. simpl. by rewrite <-!app_assoc.
Qed.

Lemma run_loop_fail commands : ∀ index uuid acc σ,
  sends_ok (length commands) (faults σ) = false →
  (run_loop commands index uuid acc σ).1 = Raise SendError.
Proof.
  induction commands as [|c cs IH]; intros index uuid acc σ Hok; [done|].
  simpl. unfold mbind, M_bind, send_command.
  destruct σ as [lg st fs nid hp rq]. simpl in *.
  destruct fs as [|[] fs]; simpl in *; try done.
  by apply IH.
Qed.

(** A dispatch touches the log, the store and the registry in no case. *)
Lemma run_loop_frame commands : ∀ index uuid acc σ,
  let σ' := (run_loop commands index uuid acc σ).2 in
  log σ' = log σ ∧ next_id σ' = next_id σ ∧ heap σ' = heap σ ∧ requests σ' = requests σ.
Proof.
  induction commands as [|c cs IH]; intros index uuid acc σ; [done|].
  simpl. unfold mbind, M_bind, send_command.
  destruct σ as [lg st fs nid hp rq]. simpl in *.
  destruct fs as [|[] fs]; simpl; try done; apply IH.
Qed.

(** ** The two mutators of a batch *)

Lemma get_obj_eq σ self b : heap σ !! self = Some b → get_obj self σ = (Ok b, σ).
Proof. intros H. unfold get_obj. by rewrite H. Qed.

Lemma update_obj_eq σ self b f :
  heap σ !! self = Some b →
  update_obj self f σ = (Ok tt, set_heap (<[self := f b]> (heap σ)) σ).
Proof. intros H. unfold update_obj, mbind, M_bind. by rewrite (get_obj_eq _ _ _ H). Qed.

Lemma set_heap_id σ self b :
  heap σ !! self = Some b → set_heap (<[self := b]> (heap σ)) σ = σ.
Proof. intros H. rewrite insert_id by done. by destruct σ. Qed.

Lemma is_running_false b tag0 :
  is_running b tag0 = false ↔ ∀ x, x ∈ running b → tag x ≠ tag0.
Proof.
  unfold is_running. induction (running b) as [|y l IH]; simpl.
  - split; [|done]. intros _ x Hx. by apply elem_of_nil in Hx.
  - rewrite orb_false_iff, IH, bool_decide_eq_false. split.
    + intros [Hy Hl] x [->|Hx]%elem_of_cons; auto.
    + intros H. split; [apply H; left|intros x Hx; apply H; by right].
Qed.

(** The first invocation that carries the tag, when there is one. *)
Lemma is_running_true b tag0 :
  is_running b tag0 = true →
  ∃ l1 x l2, running b = l1 ++ x :: l2 ∧ tag x = tag0 ∧ ∀ y, y ∈ l1 → tag y ≠ tag0.
Proof.
  unfold is_running. induction (running b) as [|y l IH]; simpl; [done|].
  destruct (decide (tag y = tag0)) as [Hy|Hy].
  - intros _. exists [], y, l. split_and!; [done..|]. intros z Hz. by apply elem_of_nil in Hz.
  - rewrite bool_decide_eq_false_2 by done. simpl. intros (l1 & x & l2 & -> & Hx & Hl1)%IH.
    exists (y :: l1), x, l2. split_and!; [done..|].
    intros z [->|Hz]%elem_of_cons; auto.
Qed.

Lemma finish_loop_miss σ self b tag0 : ∀ n index : nat,
  heap σ !! self = Some b →
  index + n = length (running b) →
  (∀ x, x ∈ drop index (running b) → tag x ≠ tag0) →
  finish_loop n index self tag0 σ = (Ok false, σ).
Proof.
  induction n as [|n IH]; intros index Hb Hlen Hmiss; [done|].
  simpl. unfold mbind, M_bind. rewrite (get_obj_eq _ _ _ Hb).
  destruct (running b !! index) as [x|] eqn:Hx.
  - rewrite decide_False.
    + apply IH; [done|lia|]. intros y Hy. apply Hmiss.
      rewrite (drop_S _ _ _ Hx). by right.
    + apply Hmiss. rewrite (drop_S _ _ _ Hx). by left.
  - apply lookup_ge_None in Hx. lia.
Qed.

Lemma finish_loop_hit σ self b tag0 (j : nat) x : ∀ n index : nat,
  heap σ !! self = Some b →
  index + n = length (running b) →
  index ≤ j →
  running b !! j = Some x →
  tag x = tag0 →
  (∀ k y, index ≤ k < j → running b !! k = Some y → tag y ≠ tag0) →
  finish_loop n index self tag0 σ
  = (Ok true, set_heap (<[self := resolved b j x]> (heap σ)) σ).
Proof.
  induction n as [|n IH]; intros index Hb Hlen Hle Hj Hx Hbefore.
  { apply lookup_lt_Some in Hj. lia. }
  simpl. unfold mbind, M_bind at 1. rewrite (get_obj_eq _ _ _ Hb).
  destruct (decide (index = j)) as [->|Hne].
  - rewrite Hj, decide_True by done. unfold resolved.
    destruct (decide (r x = 0%Z)); unfold mbind, M_bind;
      by rewrite (update_obj_eq _ _ _ _ Hb).
  - destruct (running b !! index) as [y|] eqn:Hy.
    + rewrite decide_False by (eapply Hbefore; [|done]; lia).
      apply IH; try done; try lia. intros k z Hk. apply Hbefore. lia.
    + apply lookup_ge_None in Hy. apply lookup_lt_Some in Hj. lia.
Qed.

Lemma finish_miss σ self b tag0 :
  heap σ !! self = Some b →
  is_running b tag0 = false →
  finish self tag0 σ = (Ok false, σ).
Proof.
  intros Hb Hmiss. unfold finish, mbind, M_bind. rewrite (get_obj_eq _ _ _ Hb).
  eapply finish_loop_miss; [done|done|].
  rewrite drop_0. by apply is_running_false.
Qed.

Lemma finish_hit σ self b tag0 l1 x l2 :
  heap σ !! self = Some b →
  running b = l1 ++ x :: l2 →
  tag x = tag0 →
  (∀ y, y ∈ l1 → tag y ≠ tag0) →
  finish self tag0 σ
  = (Ok true, set_heap (<[self := resolved b (length l1) x]> (heap σ)) σ).
Proof.
  intros Hb Hrun Hx Hl1. unfold finish, mbind, M_bind. rewrite (get_obj_eq _ _ _ Hb).
  eapply finish_loop_hit; try done; try lia.
  - rewrite Hrun. by apply list_lookup_middle.
  - intros k y [_ Hk]. rewrite Hrun, lookup_app_l by done.
    intros Hy. apply Hl1. by eapply list_elem_of_lookup_2.
Qed.

Lemma delete_middle {A} (l1 : list A) x l2 : delete (length l1) (l1 ++ x :: l2) = l1 ++ l2.
Proof. induction l1 as [|y l1 IH]; simpl; [done|by rewrite IH]. Qed.

Lemma next_empty σ self b :
  heap σ !! self = Some b → waiting b = [] → next self σ = (Ok tt, σ).
Proof.
  intros Hb Hw. unfold next, mbind, M_bind. by rewrite (get_obj_eq _ _ _ Hb), Hw.
Qed.

Lemma next_ok σ self b commands rest :
  heap σ !! self = Some b →
  waiting b = commands :: rest →
  sends_ok (length commands) (faults σ) = true →
  next self σ
  = (Ok tt,
     set_heap (<[self := set_running (running b ++ stage_results (uuid b) 0 commands)
                           (set_waiting rest b)]> (heap σ))
       (set_sent (sent σ ++ map (λ x, (tag x, command x)) (stage_results (uuid b) 0 commands))
          (set_faults (drop (length commands) (faults σ)) σ))).
Proof.
  intros Hb Hw Hok. unfold next, mbind, M_bind. rewrite (get_obj_eq _ _ _ Hb), Hw.
  rewrite (update_obj_eq _ _ _ _ Hb). unfold run. rewrite run_loop_ok by done.
  erewrite update_obj_eq by (simpl; apply lookup_insert_eq).
  simpl. by rewrite insert_insert_eq.
Qed.

Lemma next_fail σ self b commands rest :
  heap σ !! self = Some b →
  waiting b = commands :: rest →
  sends_ok (length commands) (faults σ) = false →
  (next self σ).1 = Raise SendError
  ∧ heap (next self σ).2 = <[self := set_waiting rest b]> (heap σ)
  ∧ requests (next self σ).2 = requests σ
  ∧ log (next self σ).2 = log σ.
Proof.
  intros Hb Hw Hok. unfold next, mbind, M_bind. rewrite (get_obj_eq _ _ _ Hb), Hw.
  rewrite (update_obj_eq _ _ _ _ Hb). unfold run.
  set (σ1 := set_heap _ σ).
  pose proof (run_loop_fail commands 0 (uuid b) [] σ1 Hok) as Hr.
  pose proof (run_loop_frame commands 0 (uuid b) [] σ1) as (Hl & _ & Hh & Hq).
  destruct (run_loop commands 0 (uuid b) [] σ1) as [[res|e] σ2]; simpl in *; [done|].
  by simplify_eq.
Qed.

(** ** [finish] (ApplyCompletion) *)

(** C8: for a tag that no invocation of [running] carries, [finish] returns
    [False] and changes nothing at all; for a tag that is carried, it
    returns [True], takes the first invocation with that tag out of
    [running] and appends it to [finished] when its return code is 0 and to
    [failed] otherwise, the rest of the batch being as before. *)
Theorem finish_spec σ self b tag0 :
  heap σ !! self = Some b →
  (is_running b tag0 = false → finish self tag0 σ = (Ok false, σ))
  ∧ (is_running b tag0 = true →
     ∃ l1 x l2,
       running b = l1 ++ x :: l2 ∧ tag x = tag0 ∧ (∀ y, y ∈ l1 → tag y ≠ tag0)
       ∧ finish self tag0 σ
         = (Ok true,
            set_heap (<[self :=
              if decide (r x = 0%Z) then
                {| uuid := uuid b; running := l1 ++ l2; waiting := waiting b;
                   finished := finished b ++ [x]; failed := failed b |}
              else
                {| uuid := uuid b; running := l1 ++ l2; waiting := waiting b;
                   finished := finished b; failed := failed b ++ [x] |}]> (heap σ)) σ)).
Proof.
  intros Hb. split.
  - intros Hmiss. by apply finish_miss with b.
  - intros (l1 & x & l2 & Hrun & Hx & Hl1)%is_running_true.
    exists l1, x, l2. split_and!; try done.
    rewrite (finish_hit σ self b tag0 l1 x l2) by done.
    unfold resolved, set_finished, set_failed, set_running. simpl.
    rewrite Hrun, delete_middle. by destruct (decide (r x = 0%Z)).
Qed.

(** ** [next] (AdvanceIfReady) *)

(** C3, as the code has it: [next] looks at [waiting] only.  With [waiting]
    empty it changes nothing; with [waiting] non-empty it pops the head
    stage and, the sends going through, appends that stage's invocations
    to [running], whether or not [running] was empty.  ([_notify] is the
    one that asks [is_ready] first.) *)
Theorem next_spec σ self b :
  heap σ !! self = Some b →
  (waiting b = [] → next self σ = (Ok tt, σ))
  ∧ (∀ commands rest,
       waiting b = commands :: rest →
       sends_ok (length commands) (faults σ) = true →
       (next self σ).1 = Ok tt
       ∧ heap (next self σ).2
         = <[self := {| uuid := uuid b;
                        running := running b ++ stage_results (uuid b) 0 commands;
                        waiting := rest;
                        finished := finished b; failed := failed b |}]> (heap σ)
       ∧ requests (next self σ).2 = requests σ).
Proof.
  intros Hb. split.
  - by apply next_empty.
  - intros commands rest Hw Hok.
    by rewrite (next_ok σ self b commands rest).
Qed.

(** ** The derived state of a batch *)

Lemma truthy_false {A} (l : list A) : truthy l = false ↔ l = [].
Proof. by destruct l. Qed.

Lemma is_finished_true b : is_finished b = true ↔ running b = [] ∧ waiting b = [].
Proof.
  unfold is_finished. rewrite andb_true_iff, !negb_true_iff, !truthy_false. done.
Qed.

Lemma is_ready_true b : is_ready b = true ↔ running b = [] ∧ waiting b ≠ [].
Proof.
  unfold is_ready. rewrite andb_true_iff, negb_true_iff, truthy_false.
  destruct (waiting b); simpl; split; intros [? ?]; split; congruence.
Qed.

Lemma CommandsRequest_new_empty σ :
  CommandsRequest_new [] σ
  = (Ok (next_id σ),
     set_heap (<[next_id σ := {| uuid := pretty (next_id σ); running := [];
                                  waiting := []; finished := []; failed := [] |}]>
                 (heap σ))
       (set_next_id (N.succ (next_id σ)) σ)).
Proof. done. Qed.

(** C7: [get_state] is ["success"] exactly when the batch is finished with
    [failed] empty, ["failed"] exactly when it is finished with [failed]
    non-empty, and ["pending"] exactly when it is not finished; being
    finished means that [running] and [waiting] are both empty.  Submitting
    the empty list of stages registers a batch that is finished at once,
    with state ["success"]. *)
Theorem get_state_spec :
  (∀ b : CommandsRequest,
     (is_finished b = true ↔ running b = [] ∧ waiting b = [])
     ∧ (get_state b = "success" ↔ is_finished b = true ∧ failed b = [])
     ∧ (get_state b = "failed" ↔ is_finished b = true ∧ failed b ≠ [])
     ∧ (get_state b = "pending" ↔ is_finished b = false))
  ∧ (∀ σ : Mgr,
       (submit_request [] σ).1 = Ok (pretty (next_id σ))
       ∧ requests (submit_request [] σ).2 = requests σ ++ [next_id σ]
       ∧ ∃ b, heap (submit_request [] σ).2 !! next_id σ = Some b
              ∧ is_finished b = true ∧ get_state b = "success").
Proof.
  split.
  - intros b. split; [apply is_finished_true|].
    unfold get_state, has_failed.
    destruct (is_finished b); simpl; destruct (failed b); simpl;
      split_and!; split; try done; intros []; done.
  - intros σ. unfold submit_request, mbind, M_bind.
    rewrite CommandsRequest_new_empty. simpl.
    unfold get_obj. simpl. rewrite lookup_insert_eq. simpl.
    split_and!; [done..|]. eexists. by rewrite lookup_insert_eq.
Qed.

(** ** A finished batch stays finished *)

Lemma do_call_finished σ self b c :
  heap σ !! self = Some b → is_finished b = true → exec (do_call self c) σ = σ.
Proof.
  intros Hb [Hrun Hw]%is_finished_true. unfold exec. destruct c as [index rv|tag0|]; simpl.
  - unfold complete. rewrite (update_obj_eq _ _ _ _ Hb).
    replace (set_running (alter (set_r rv) index (running b)) b) with b
      by (destruct b; simpl in *; by subst).
    by rewrite set_heap_id.
  - unfold mbind, M_bind. rewrite (finish_miss σ self b tag0); [done..|].
    apply is_running_false. rewrite Hrun. intros x Hx. by apply elem_of_nil in Hx.
  - by rewrite (next_empty σ self b).
Qed.

(** C6: once a batch is finished ([running] and [waiting] both empty), no
    run of further calls to it (outcomes stored by the control plane,
    [finish], [next]) changes anything: the batch, and with it the whole
    manager state, is as before, so the batch is still finished. *)
Theorem is_finished_stable σ self b (cs : list call) :
  heap σ !! self = Some b →
  is_finished b = true →
  do_calls self cs σ = σ
  ∧ ∃ b', heap (do_calls self cs σ) !! self = Some b'
          ∧ is_finished b' = true ∧ running b' = [] ∧ waiting b' = [].
Proof.
  intros Hb Hfin.
  assert (do_calls self cs σ = σ) as Heq.
  { induction cs as [|c cs IH]; [done|].
    unfold do_calls in *. simpl. by rewrite (do_call_finished σ self b c). }
  split; [done|]. rewrite Heq. exists b.
  by apply is_finished_true in Hfin as Hfin'; destruct Hfin'.
Qed.

(** ** The log is write-only *)

Lemma run_loop_set_log l commands : ∀ index uuid acc σ,
  run_loop commands index uuid acc (set_log l σ)
  = ((run_loop commands index uuid acc σ).1,
     set_log l (run_loop commands index uuid acc σ).2).
Proof.
  induction commands as [|c cs IH]; intros index uuid acc σ; [done|].
  simpl. unfold mbind, M_bind, send_command. simpl.
  destruct (faults σ) as [|[] fs]; simpl; [|done|].
  - exact (IH _ _ _ (set_sent _ σ)).
  - exact (IH _ _ _ (set_sent _ (set_faults fs σ))).
Qed.

Lemma next_set_log l self σ :
  next self (set_log l σ) = ((next self σ).1, set_log l (next self σ).2).
Proof.
  unfold next, mbind, M_bind, get_obj. simpl.
  destruct (heap σ !! self) as [b|] eqn:Hb; [|done].
  destruct (waiting b) as [|commands rest]; [done|].
  unfold update_obj, mbind, M_bind, get_obj. simpl. rewrite Hb. simpl.
  unfold run.
  change (set_heap ?h (set_log l σ)) with (set_log l (set_heap h σ)).
  rewrite run_loop_set_log.
  pose proof (run_loop_frame commands 0 (uuid b) [] 
     (set_heap (<[self:=set_waiting rest b]> (heap σ)) σ)) as (_ & _ & Hh & _).
  destruct (run_loop commands 0 (uuid b) [] _) as [[res|e] σ2]; simpl in *; [|done].
  rewrite Hh, lookup_insert_eq. done.
Qed.

Lemma finish_set_log l self tag0 σ :
  finish self tag0 (set_log l σ) = ((finish self tag0 σ).1, set_log l (finish self tag0 σ).2).
Proof.
  destruct (heap σ !! self) as [b|] eqn:Hb.
  - destruct (is_running b tag0) eqn:Hrun.
    + apply is_running_true in Hrun as (l1 & x & l2 & Hr & Hx & Hl1).
      rewrite (finish_hit σ self b tag0 l1 x l2) by done.
      by rewrite (finish_hit (set_log l σ) self b tag0 l1 x l2).
    + rewrite (finish_miss σ self b tag0) by done.
      by rewrite (finish_miss (set_log l σ) self b tag0).
  - unfold finish, mbind, M_bind, get_obj. simpl. by rewrite Hb.
Qed.

Lemma notify_never_raises notify_type tag0 σ : (notify notify_type tag0 σ).1 = Ok tt.
Proof.
  unfold notify, try_except.
  by destruct (_notify notify_type tag0 σ) as [[[]|e] σ'].
Qed.

Lemma holds_true σ p x : holds σ p x = true → ∃ b, heap σ !! x = Some b ∧ p b = true.
Proof. unfold holds. destruct (heap σ !! x) as [b|]; [eauto|done]. Qed.



Lemma _notify_drop σ tag0 :
  length (claimants σ tag0) ≠ 1 →
  _notify "command" tag0 σ
  = (Ok tt, set_log (log σ ++ [LogWarn ("Processing request '" +:+ tag0 +:+ "'");
                               LogWarn "Requests";
                               LogWarn ("Unknown request '" +:+ tag0 +:+ "'")]) σ).
Proof.
  intros Hlen. unfold _notify. rewrite decide_True by done.
  mstep.
  mstep.
  mstep.
  change (filter _ _) with (claimants σ tag0).
  rewrite decide_True by done.
  unfold log_warn, modify. simpl. by rewrite <-!app_assoc.
Qed.

Lemma _notify_route σ tag0 x b l1 y l2 :
  claimants σ tag0 = [x] →
  heap σ !! x = Some b →
  running b = l1 ++ y :: l2 →
  tag y = tag0 →
  (∀ z, z ∈ l1 → tag z ≠ tag0) →
  let b1 := resolved b (length l1) y in
  _notify "command" tag0 σ
  = (if is_ready b1 then next x else mret tt)
      (set_log (log σ ++ [LogWarn ("Processing request '" +:+ tag0 +:+ "'");
                          LogWarn "Requests"; LogWarn "RUNNING Requests";
                          LogWarn "WAITING Requests"; LogWarn "FINISHED Requests"])
         (set_heap (<[x := b1]> (heap σ)) σ)).
Proof.
  intros Hc Hb Hr Hy Hl1 b1. unfold _notify. rewrite decide_True by done.
  mstep.
  mstep.
  mstep.
  change (filter _ _) with (claimants σ tag0). rewrite Hc.
  rewrite decide_False by (simpl; lia).
  erewrite bind_ok by (rewrite !finish_set_log, (finish_hit σ x b tag0 l1 y l2) by done;
                       reflexivity).
  mstep.
  mstep.
  mstep.
  erewrite bind_ok by (apply get_obj_eq; simpl; apply lookup_insert_eq).
  fold b1. simpl. by rewrite <-!app_assoc.
Qed.

(** ** The notification router *)

(** C10: a completion for [tag0] is dropped, with every batch, the
    registry and the control plane left as they were, whenever the number
    of registered batches running an invocation with that tag is not one:
    none, or more than one.  When exactly one batch [x] claims the tag,
    [finish] is applied to it and finds the invocation; [next] is then
    called on [x] exactly when [x] is ready after that. *)
Theorem notify_spec σ tag0 :
  let σ' := exec (notify "command" tag0) σ in
  (length (claimants σ tag0) ≠ 1 →
     heap σ' = heap σ ∧ requests σ' = requests σ
     ∧ sent σ' = sent σ ∧ faults σ' = faults σ)
  ∧ (∀ x, claimants σ tag0 = [x] →
       (finish x tag0 σ).1 = Ok true
       ∧ ∃ b1, heap (exec (finish x tag0) σ) !! x = Some b1
          ∧ let σ2 := if is_ready b1 then exec (next x) (exec (finish x tag0) σ)
                      else exec (finish x tag0) σ in
            heap σ' = heap σ2 ∧ requests σ' = requests σ2
            ∧ sent σ' = sent σ2 ∧ faults σ' = faults σ2).
Proof.
  intros σ'. subst σ'. unfold exec, notify, try_except. split.
  - intros Hlen. by rewrite _notify_drop.
  - intros x Hx.
    assert (x ∈ claimants σ tag0) as Hin by (rewrite Hx; by left).
    apply list_elem_of_filter in Hin as [Hin _].
    apply Is_true_true, holds_true in Hin as (b & Hb & Hrun).
    apply is_running_true in Hrun as (l1 & y & l2 & Hr & Hy & Hl1).
    rewrite (_notify_route σ tag0 x b l1 y l2) by done.
    rewrite (finish_hit σ x b tag0 l1 y l2) by done. simpl.
    split; [done|]. exists (resolved b (length l1) y).
    rewrite lookup_insert_eq. split; [done|].
    destruct (is_ready (resolved b (length l1) y)); [|done].
    rewrite next_set_log.
    by destruct (next x (set_heap _ σ)) as [[[]|e] σ3].
Qed.

(** ** Sweeping the registry *)

Lemma filter_split_length {A} (p : A → bool) (l : list A) :
  length l = length (filter (λ x, p x) l) + length (filter (λ x, negb (p x)) l).
Proof.
  induction l as [|x l IH]; [done|].
  rewrite !filter_cons. destruct (p x); simpl; lia.
Qed.

(** C9: [Request.delete] keeps exactly the registered batches that are not
    finished, in their order, touches no batch, and returns how many
    finished ones it dropped; on a registry of a finished, a pending and a
    finished batch it returns 2 and keeps the pending one alone. *)
Theorem Request_delete_spec (σ : Mgr) :
  let kept := filter (λ x, negb (holds σ is_finished x)) (requests σ) in
  let removed := filter (λ x, holds σ is_finished x) (requests σ) in
  Request_delete σ = (Ok (inl (Z.of_nat (length removed))), set_requests kept σ)
  ∧ kept `sublist_of` requests σ
  ∧ (∀ x, x ∈ kept ↔ x ∈ requests σ ∧ holds σ is_finished x = false)
  ∧ (∀ x1 x2 x3,
       requests σ = [x1; x2; x3] →
       holds σ is_finished x1 = true →
       holds σ is_finished x2 = false →
       holds σ is_finished x3 = true →
       Request_delete σ = (Ok (inl 2%Z), set_requests [x2] σ)).
Proof.
  intros kept removed.
  assert (Request_delete σ
          = (Ok (inl (Z.of_nat (length removed))), set_requests kept σ)) as Heq.
  { unfold Request_delete, catch, try_except, fmap, M_fmap.
    mstep.
    mstep.
    mstep.
    unfold mret, M_ret. simpl. fold kept. do 3 f_equal.
    pose proof (filter_split_length (holds σ is_finished) (requests σ)) as Hlen.
    fold kept removed in Hlen. lia. }
  split_and!.
  - done.
  - apply sublist_filter.
  - intros x. unfold kept. rewrite list_elem_of_filter.
    destruct (holds σ is_finished x); simpl; intuition congruence.
  - intros x1 x2 x3 Hreq H1 H2 H3. rewrite Heq. unfold kept, removed.
    rewrite Hreq, !filter_cons, !filter_nil, H1, H2, H3. simpl.
    reflexivity.
Qed.

(** ** Construction *)

Lemma guarded_run_fail σ first uuid0 :
  sends_ok (length first) (faults σ) = false →
  ∃ σ2, try_except (Some <$> run first uuid0) (λ e, log_error e;; mret None) σ
        = (Ok None, σ2)
        ∧ log σ2 = log σ ++ [LogError SendError] ∧ next_id σ2 = next_id σ
        ∧ heap σ2 = heap σ ∧ requests σ2 = requests σ.
Proof.
  intros Hf. unfold try_except, fmap, M_fmap, run.
  pose proof (run_loop_fail first 0 uuid0 [] σ Hf) as Hr.
  pose proof (run_loop_frame first 0 uuid0 [] σ) as (Hl & Hn & Hh & Hq).
  destruct (run_loop first 0 uuid0 [] σ) as [[res|e] σ1]; simpl in *; [done|].
  simplify_eq. eexists. split; [reflexivity|]. simpl. by rewrite Hl.
Qed.

Lemma CommandsRequest_init_fail σ self first rest :
  sends_ok (length first) (faults σ) = false →
  ∃ σ2, CommandsRequest_init self (first :: rest) σ
        = (Raise (UnboundLocalError "results"), σ2)
        ∧ log σ2 = log σ ++ [LogError SendError] ∧ next_id σ2 = next_id σ
        ∧ requests σ2 = requests σ
        ∧ heap σ2 = <[self := {| uuid := pretty self; running := []; waiting := rest;
                                 finished := []; failed := [] |}]> (heap σ).
Proof.
  intros Hf. unfold CommandsRequest_init.
  mstep.
  match goal with |- context [try_except ?m ?h] =>
    destruct (guarded_run_fail
                (set_heap (<[self := {| uuid := pretty self; running := [];
                                        waiting := rest; finished := [];
                                        failed := [] |}]> (heap σ)) σ)
                first (pretty self) Hf) as (σ2 & Heq & Hl & Hn & Hh & Hq)
  end.
  erewrite bind_ok by exact Heq.
  by exists σ2.
Qed.

(** C2, as the code has it: when the dispatch of the first stage throws
    inside the constructor, the error is logged and the new object has
    [running] empty and the remaining groups in [waiting]; but the
    constructor then reads the local [results], which was never assigned,
    and raises [UnboundLocalError]: it does not return, and
    [submit_request] registers no batch. *)
Theorem CommandsRequest_init_dispatch_throws σ first rest :
  sends_ok (length first) (faults σ) = false →
  let σ' := (submit_request (first :: rest) σ).2 in
  (CommandsRequest_new (first :: rest) σ).1 = Raise (UnboundLocalError "results")
  ∧ (submit_request (first :: rest) σ).1 = Raise (UnboundLocalError "results")
  ∧ log σ' = log σ ++ [LogError SendError]
  ∧ requests σ' = requests σ
  ∧ heap σ' !! next_id σ
    = Some {| uuid := pretty (next_id σ); running := []; waiting := rest;
              finished := []; failed := [] |}.
Proof.
  intros Hf σ'. subst σ'.
  destruct (CommandsRequest_init_fail (set_next_id (N.succ (next_id σ)) σ)
              (next_id σ) first rest Hf) as (σ2 & Heq & Hl & Hn & Hq & Hh).
  assert (CommandsRequest_new (first :: rest) σ
          = (Raise (UnboundLocalError "results"), σ2)) as Hnew.
  { unfold CommandsRequest_new.
    mstep.
    mstep.
    unfold mbind, M_bind. by rewrite Heq. }
  assert (submit_request (first :: rest) σ
          = (Raise (UnboundLocalError "results"), σ2)) as ->.
  { unfold submit_request, mbind, M_bind. by rewrite Hnew. }
  rewrite Hnew. simpl. split_and!; try done.
  rewrite Hh. simpl. by rewrite lookup_insert_eq.
Qed.

(** ** Every submitted command is tracked once *)

Lemma forallb_take {A} (p : A → bool) n (l : list A) :
  forallb p l = true → forallb p (take n l) = true.
Proof.
  revert n. induction l as [|x l IH]; intros [|n]; simpl; try done.
  rewrite !andb_true_iff. intros [? ?]. auto.
Qed.

Lemma forallb_drop {A} (p : A → bool) n (l : list A) :
  forallb p l = true → forallb p (drop n l) = true.
Proof.
  revert n. induction l as [|x l IH]; intros [|n]; simpl; try done.
  rewrite !andb_true_iff. intros [? ?]. auto.
Qed.

Lemma map_command_alter rv index (l : list CommandResult) :
  map command (alter (set_r rv) index l) = map command l.
Proof.
  revert index. induction l as [|x l IH]; intros [|index]; simpl; try done.
  f_equal. apply IH.
Qed.

Lemma tracked_resolved b l1 x l2 :
  running b = l1 ++ x :: l2 → tracked (resolved b (length l1) x) ≡ₚ tracked b.
Proof.
  intros Hr. unfold resolved, tracked.
  destruct (decide (r x = 0%Z)); simpl; rewrite Hr, delete_middle, !map_app; simpl;
    rewrite ?map_app; simpl; solve_Permutation.
Qed.

Lemma CommandsRequest_init_ok σ self first rest :
  sends_ok (length first) (faults σ) = true →
  CommandsRequest_init self (first :: rest) σ
  = (Ok tt,
     set_heap (<[self := {| uuid := pretty self;
                            running := stage_results (pretty self) 0 first;
                            waiting := rest; finished := []; failed := [] |}]> (heap σ))
       (set_sent (sent σ ++ map (λ x, (tag x, command x))
                                (stage_results (pretty self) 0 first))
          (set_faults (drop (length first) (faults σ)) σ))).
Proof.
  intros Hok. unfold CommandsRequest_init.
  mstep.
  erewrite bind_ok
    by (unfold try_except, fmap, M_fmap, run; rewrite run_loop_ok by done; reflexivity).
  cbv beta iota.
  erewrite update_obj_eq by (simpl; apply lookup_insert_eq).
  simpl. by rewrite insert_insert_eq.
Qed.

Lemma CommandsRequest_new_ok σ commands_arrays :
  fault_free σ = true →
  (CommandsRequest_new commands_arrays σ).1 = Ok (next_id σ)
  ∧ accounted (concat commands_arrays) (next_id σ) (CommandsRequest_new commands_arrays σ).2.
Proof.
  intros Hff. destruct commands_arrays as [|first rest].
  - rewrite CommandsRequest_new_empty. simpl. split; [done|]. split; [done|].
    eexists. simpl. by rewrite lookup_insert_eq.
  - unfold CommandsRequest_new.
    mstep.
    mstep.
    erewrite bind_ok by (apply CommandsRequest_init_ok; by apply forallb_take).
    simpl. split; [done|]. split.
    + by apply forallb_drop.
    + eexists. simpl. rewrite lookup_insert_eq. split; [done|].
      unfold tracked. simpl. by rewrite stage_results_commands.
Qed.

Lemma do_call_accounted cmds self c σ :
  accounted cmds self σ → accounted cmds self (exec (do_call self c) σ).
Proof.
  intros (Hff & b & Hb & Hperm). unfold exec. destruct c as [index rv|tag0|]; simpl.
  - unfold complete. rewrite (update_obj_eq _ _ _ _ Hb). simpl.
    split; [done|]. eexists. simpl. rewrite lookup_insert_eq. split; [done|].
    unfold tracked. simpl. by rewrite map_command_alter.
  - unfold mbind, M_bind. destruct (is_running b tag0) eqn:Hrun.
    + apply is_running_true in Hrun as (l1 & x & l2 & Hr & Hx & Hl1).
      rewrite (finish_hit σ self b tag0 l1 x l2) by done. simpl.
      split; [done|]. eexists. simpl. rewrite lookup_insert_eq. split; [done|].
      by rewrite tracked_resolved.
    + rewrite (finish_miss σ self b tag0) by done. simpl. split; [done|]. by exists b.
  - destruct (waiting b) as [|commands rest] eqn:Hw.
    + rewrite (next_empty σ self b) by done. simpl. split; [done|]. by exists b.
    + rewrite (next_ok σ self b commands rest) by (by try apply forallb_take).
      simpl. split; [by apply forallb_drop|].
      eexists. simpl. rewrite lookup_insert_eq. split; [done|].
      rewrite <-Hperm. unfold tracked. simpl.
      rewrite Hw, map_app, stage_results_commands. simpl. solve_Permutation.
Qed.

(** C4, for dispatches that go through: when no send raises, the
    constructor returns, and after it and any run of calls to the batch
    (outcomes stored by the control plane, [finish], [next]) the commands of
    [running], [finished], [failed] and of the stages in [waiting], taken
    together, are the submitted commands, each as often as it was
    submitted. *)
Theorem tracked_partition σ commands_arrays (cs : list call) :
  fault_free σ = true →
  (CommandsRequest_new commands_arrays σ).1 = Ok (next_id σ)
  ∧ ∃ b, heap (do_calls (next_id σ) cs (CommandsRequest_new commands_arrays σ).2)
           !! next_id σ = Some b
         ∧ tracked b ≡ₚ concat commands_arrays.
Proof.
  intros Hff.
  destruct (CommandsRequest_new_ok σ commands_arrays Hff) as [Hres Hacc].
  split; [done|].
  cut (accounted (concat commands_arrays) (next_id σ)
         (do_calls (next_id σ) cs (CommandsRequest_new commands_arrays σ).2)).
  { by intros (_ & b & Hb & Hperm); exists b. }
  generalize dependent (CommandsRequest_new commands_arrays σ).2.
  induction cs as [|c cs IH]; intros σ0 Hacc; [done|].
  unfold do_calls. simpl. apply IH. by apply do_call_accounted.
Qed.

(** ** Tags *)

Lemma pretty_N_go_no_colon (x : N) : ∀ s,
  has_colon s = false → has_colon (pretty_N_go x s) = false.
Proof.
  induction (N.lt_wf_0 x) as [x _ IH]; intros s Hs.
  destruct (decide (x = 0%N)) as [->|Hx].
  - by rewrite pretty_N_go_0.
  - rewrite pretty_N_go_step by lia. apply IH.
    + apply N.div_lt; lia.
    + simpl. rewrite Hs, orb_false_r. apply bool_decide_eq_false.
      unfold pretty_N_char. by repeat case_match.
Qed.

Lemma pretty_N_no_colon (x : N) : has_colon (pretty x) = false.
Proof.
  unfold pretty, pretty_N. case_decide; [done|]. by apply pretty_N_go_no_colon.
Qed.

(** A tag splits at its first colon in one way only. *)
Lemma tag_split u1 : ∀ u2 a b,
  has_colon u1 = false → has_colon u2 = false →
  u1 +:+ ":" +:+ a = u2 +:+ ":" +:+ b → u1 = u2 ∧ a = b.
Proof.
  induction u1 as [|c1 u1 IH]; intros [|c2 u2] a b H1 H2 Heq; simpl in *;
    try (by simplify_eq).
  apply orb_false_iff in H1 as [_ H1]. apply orb_false_iff in H2 as [_ H2].
  injection Heq as -> Heq. by destruct (IH _ _ _ H1 H2 Heq) as [-> ->].
Qed.

Lemma run_results commands uuid0 σ results :
  (run commands uuid0 σ).1 = Ok results → results = stage_results uuid0 0 commands.
Proof.
  unfold run. destruct (sends_ok (length commands) (faults σ)) eqn:Hok.
  - rewrite run_loop_ok by done. simpl. by intros [= <-].
  - by rewrite run_loop_fail.
Qed.

(** C1, as the code has it: the invocation that a dispatch for the batch
    with identity [s] builds at position [i] of the stage gets the tag
    [<s>:<i>].  So a tag tells the batch and the position within the stage,
    and nothing more: two dispatched invocations carry the same tag exactly
    when they belong to batches of the same identity and sit at the same
    position of their stages, be it of one stage or of two. *)
Theorem tag_identifies_batch_and_position (s s' : N) commands commands' σ σ'
    results results' (i j : nat) x y :
  (run commands (pretty s) σ).1 = Ok results →
  (run commands' (pretty s') σ').1 = Ok results' →
  results !! i = Some x →
  results' !! j = Some y →
  tag x = pretty s +:+ ":" +:+ pretty i
  ∧ (tag x = tag y ↔ s = s' ∧ i = j).
Proof.
  intros ->%run_results ->%run_results Hx Hy.
  apply stage_results_lookup in Hx as (Hx & _ & _).
  apply stage_results_lookup in Hy as (Hy & _ & _).
  simpl in *. split; [done|]. rewrite Hx, Hy. split.
  - intros [Hs Hi]%tag_split; try apply pretty_N_no_colon.
    by apply (inj pretty) in Hs, Hi.
  - by intros [-> ->].
Qed.

(** ** A failure inside a stage *)

(** C5: on a fresh module whose sends go through, submitting [[a], [b]]
    leaves [a]'s invocation running and [[b]] waiting.  A completion of
    [a]'s invocation with a non-zero return code moves it to [failed] and
    dispatches the second stage at once: [running] holds [b]'s invocation
    and [waiting] is empty.  A completion of that one with return code 0
    moves it to [finished], and the state of the batch is ["failed"]. *)
Theorem failure_does_not_halt (a b : Command) (rv : Z) :
  rv ≠ 0%Z →
  let A := {| tag := "0:0"; command := a; r := r_init |} in
  let B := {| tag := "0:0"; command := b; r := r_init |} in
  let σ1 := exec (submit_request [[a]; [b]]) (Module_init []) in
  let σ2 := exec (OnCompletion 0 0 rv) σ1 in
  let σ3 := exec (OnCompletion 0 0 0) σ2 in
  requests σ1 = [0%N] ∧ requests σ3 = [0%N]
  ∧ heap σ1 !! 0%N
    = Some {| uuid := "0"; running := [A]; waiting := [[b]];
              finished := []; failed := [] |}
  ∧ heap σ2 !! 0%N
    = Some {| uuid := "0"; running := [B]; waiting := [];
              finished := []; failed := [set_r rv A] |}
  ∧ heap σ3 !! 0%N
    = Some {| uuid := "0"; running := []; waiting := [];
              finished := [set_r 0 B]; failed := [set_r rv A] |}
  ∧ get_state <$> heap σ3 !! 0%N = Some "failed".
Proof.
  intros Hrv A B σ1 σ2 σ3.
  destruct rv as [|p|p]; [done|..]; by vm_compute.
Qed.


(** * The rest of the registry: listing, inspecting and cancelling batches *)

(** ** [api.Request.get], [api.RequestUuid.delete], [api.RequestUuid.get] *)

(** The loop of [Request.get] over [Module.requests], filling the
    dictionary [states]. *)
Fixpoint Request_get_loop (rs : list N) (states : gmap string string)
  : M Mgr (gmap string string) :=
  match rs with
  | [] => mret states
  | request :: rs' =>
      b ← get_obj request;
      Request_get_loop rs' (<[uuid b := get_state b]> states)
  end.

Definition Request_get : M Mgr (gmap string string + exn) :=
  catch (rs ← gets requests; Request_get_loop rs ∅).

(** The loop of [RequestUuid.delete]: [n] iterations are left, the next one
    looks at [module.instance.requests[index]]. *)
Fixpoint RequestUuid_delete_loop (n index : nat) (uuid0 : string) : M Mgr bool :=
  match n with
  | O => mret false
  | S n' =>
      rs ← gets requests;
      match rs !! index with
      | None => raise IndexError
      | Some x =>
          b ← get_obj x;
          if decide (uuid b = uuid0) then
            modify (λ σ, set_requests (delete index (requests σ)) σ);;
            mret true
          else RequestUuid_delete_loop n' (S index) uuid0
      end
  end.

Definition RequestUuid_delete (uuid0 : string) : M Mgr (bool + exn) :=
  catch (n ← gets (λ σ, length (requests σ));
         RequestUuid_delete_loop n 0 uuid0).

(** What [RequestUuid.get] answers with.  [GetRaised attr] stands for the
    [AttributeError] that reading the attribute [attr] of a list raises
    inside the method; the decorator [catch] turns it into an error
    answer (the record it writes to the log is left out here). *)
Record Snapshot : Type := mkSnapshot {
  snap_uuid : string;
  snap_running : list Command;
  snap_finished : list Command;
  snap_waiting : list Command;
  snap_failed : list Command;
  snap_is_waiting : bool;
  snap_is_finished : bool;
  snap_has_failed : bool;
}.

Inductive GetAnswer : Type :=
  | GetUnknown (uuid0 : string)   (* [{'error': 'Unknown request UUID ...'}] *)
  | GetSnapshot (s : Snapshot)
  | GetRaised (attr : string).

(** [map(lambda x: x.command, request.waiting)]: the elements of [waiting]
    are stages, that is lists, and a list has no attribute [command]; the
    first element makes the [map] raise. *)
Definition waiting_commands (w : list (list Command)) : option (list Command) :=
  match w with
  | [] => Some []
  | _ :: _ => None
  end.

(** The body of [RequestUuid.get]; it reads the state and changes nothing. *)
Definition RequestUuid_get (σ : Mgr) (uuid0 : string) : GetAnswer :=
  let request :=
    filter (λ x, holds σ (λ b, bool_decide (uuid b = uuid0)) x) (requests σ) in
  if decide (length request ≠ 1) then GetUnknown uuid0
  else
    match request with
    | [] => GetUnknown uuid0
    | request :: _ =>
        match heap σ !! request with
        | None => GetUnknown uuid0
        | Some b =>
            let r_running := map command (running b) in
            let r_finished := map command (finished b) in
            match waiting_commands (waiting b) with
            | None => GetRaised "command"
            | Some r_waiting =>
                GetSnapshot
                  {| snap_uuid := uuid b;
                     snap_running := r_running;
                     snap_finished := r_finished;
                     snap_waiting := r_waiting;
                     snap_failed := map command (failed b);
                     snap_is_waiting := is_waiting b;
                     snap_is_finished := is_finished b;
                     snap_has_failed := has_failed b |}
            end
        end
    end.

(** ** What happens to a module over its life *)

(** The events that reach the module: a submission, a completion that the
    control plane reports for the invocation at [index] of [running] of the
    batch [self], a notification of any type and tag, a sweep, a
    cancellation. *)
Inductive event : Type :=
  | Submit (request : list (list Command))
  | Completion (self : N) (index : nat) (rv : Z)
  | Notify (notify_type tag0 : string)
  | Sweep
  | Cancel (uuid0 : string).

Definition do_event (e : event) (σ : Mgr) : Mgr :=
  match e with
  | Submit request => exec (submit_request request) σ
  | Completion self index rv => exec (OnCompletion self index rv) σ
  | Notify notify_type tag0 => exec (notify notify_type tag0) σ
  | Sweep => exec Request_delete σ
  | Cancel uuid0 => exec (RequestUuid_delete uuid0) σ
  end.

Definition do_events (es : list event) (σ : Mgr) : Mgr :=
  foldl (λ σ e, do_event e σ) σ es.

(** A batch as the module keeps it: it carries its identity as [uuid], and
    the invocations of [running] carry distinct tags, each made of that
    identity and a position. *)
Definition batch_ok (x : N) (b : CommandsRequest) : Prop :=
  uuid b = pretty x
  ∧ NoDup (map tag (running b))
  ∧ Forall (λ res, ∃ i : nat, tag res = pretty x +:+ ":" +:+ pretty i) (running b).

(** The registry as the module keeps it: no batch is registered twice, and
    every registered reference is to an object built earlier that is a
    batch as above. *)
Definition registry_ok (σ : Mgr) : Prop :=
  NoDup (requests σ)
  ∧ ∀ x, x ∈ requests σ →
      (x < next_id σ)%N ∧ ∃ b, heap σ !! x = Some b ∧ batch_ok x b.

(** What one notification can do to the batch it is routed to: the
    invocation [y] at the first position carrying the tag leaves
    [running]; if that empties [running] while stages wait, the head stage
    leaves [waiting] and its invocations, unless a send raises, enter
    [running].  [fs] is the behaviour of the coming sends. *)
Definition routed (fs : list bool) (tag0 : string) (b b' : CommandsRequest) : Prop :=
  ∃ l1 y l2,
    running b = l1 ++ y :: l2 ∧ tag y = tag0 ∧ (∀ z, z ∈ l1 → tag z ≠ tag0)
    ∧ let b1 := resolved b (length l1) y in
      (is_ready b1 = false ∧ b' = b1)
      ∨ (is_ready b1 = true
         ∧ ∃ commands rest,
             waiting b1 = commands :: rest
             ∧ ((sends_ok (length commands) fs = true
                 ∧ b' = set_running (stage_results (uuid b1) 0 commands)
                          (set_waiting rest b1))
                ∨ (sends_ok (length commands) fs = false
                   ∧ b' = set_waiting rest b1))).

(** Every registered reference is to an object of the store. *)
Definition refs_valid (σ : Mgr) : Prop :=
  ∀ x, x ∈ requests σ → is_Some (heap σ !! x).

(** The registered batches whose [uuid] is [uuid0]: the list that
    [RequestUuid.get] filters out of [Module.requests]. *)
Definition with_uuid (σ : Mgr) (uuid0 : string) : list N :=
  filter (λ x, holds σ (λ b, bool_decide (uuid b = uuid0)) x) (requests σ).

(** ** Frames *)

Lemma next_frame σ self :
  requests (next self σ).2 = requests σ ∧ next_id (next self σ).2 = next_id σ.
Proof.
  unfold next, mbind, M_bind, get_obj.
  destruct (heap σ !! self) as [b|] eqn:Hb; [|done].
  destruct (waiting b) as [|commands rest]; [done|].
  unfold update_obj, mbind, M_bind, get_obj. simpl. rewrite Hb. simpl. unfold run.
  set (σ1 := set_heap _ σ).
  pose proof (run_loop_frame commands 0 (uuid b) [] σ1) as (_ & Hn & Hh & Hq).
  destruct (run_loop commands 0 (uuid b) [] σ1) as [[res|e] σ2]; simpl in *; [|done].
  rewrite Hh. subst σ1. simpl. by rewrite lookup_insert_eq.
Qed.

Lemma is_ready_resolved_running b :
  is_ready b = true → running b = [] ∧ ∃ commands rest, waiting b = commands :: rest.
Proof.
  intros [Hr Hw]%is_ready_true. split; [done|].
  destruct (waiting b) as [|c w]; [done|eauto].
Qed.

(** The whole effect of a notification on the store, the registry and the
    identities: nothing, or one step of the one batch that claims the tag. *)
Lemma notify_effect σ notify_type tag0 :
  let σ' := exec (notify notify_type tag0) σ in
  requests σ' = requests σ ∧ next_id σ' = next_id σ
  ∧ (heap σ' = heap σ
     ∨ ∃ x b b', claimants σ tag0 = [x] ∧ heap σ !! x = Some b
                 ∧ routed (faults σ) tag0 b b' ∧ heap σ' = <[x := b']> (heap σ)).
Proof.
  intros σ'. subst σ'. unfold exec, notify, try_except.
  destruct (decide (notify_type = "command")) as [->|Hty].
  2:{ unfold _notify. rewrite decide_False by done. simpl. auto. }
  destruct (decide (length (claimants σ tag0) ≠ 1)) as [Hlen|Hlen].
  { rewrite _notify_drop by done. simpl. auto. }
  destruct (claimants σ tag0) as [|x [|??]] eqn:Hc; simpl in Hlen; try lia.
  assert (x ∈ claimants σ tag0) as Hin by (rewrite Hc; by left).
  apply list_elem_of_filter in Hin as [Hin _].
  apply Is_true_true, holds_true in Hin as (b & Hb & Hrun).
  apply is_running_true in Hrun as (l1 & y & l2 & Hr & Hy & Hl1).
  rewrite (_notify_route σ tag0 x b l1 y l2) by done.
  set (b1 := resolved b (length l1) y).
  set (L := log σ ++ _).
  destruct (is_ready b1) eqn:Hready.
  - apply is_ready_resolved_running in Hready as Hrw.
    destruct Hrw as (Hr1 & commands & rest & Hw1).
    rewrite next_set_log.
    set (σ1 := set_heap (<[x:=b1]> (heap σ)) σ).
    assert (heap σ1 !! x = Some b1) as Hb1 by (simpl; apply lookup_insert_eq).
    destruct (next_frame σ1 x) as [Hq Hn].
    assert (∃ b', heap (next x σ1).2 = <[x := b']> (heap σ)
                  ∧ ((sends_ok (length commands) (faults σ) = true
                      ∧ b' = set_running (stage_results (uuid b1) 0 commands)
                               (set_waiting rest b1))
                     ∨ (sends_ok (length commands) (faults σ) = false
                        ∧ b' = set_waiting rest b1))) as (b' & Hh & Hb').
    { destruct (sends_ok (length commands) (faults σ)) eqn:Hok.
      - rewrite (next_ok σ1 x b1 commands rest) by done. simpl.
        rewrite insert_insert_eq, Hr1. simpl. eauto.
      - destruct (next_fail σ1 x b1 commands rest Hb1 Hw1 Hok) as (_ & Hh & _).
        rewrite Hh. simpl. rewrite insert_insert_eq. eauto. }
    assert (routed (faults σ) tag0 b b') as Hrouted.
    { exists l1, y, l2. split_and!; try done. right. split; [done|]. eauto. }
    destruct (next x σ1) as [[[]|e] σ2]; simpl in *;
      (split_and!; [done|done|right; exists x, b, b'; by split_and!]).
  - simpl. split_and!; [done|done|right]. exists x, b, b1. split_and!; try done.
    exists l1, y, l2. split_and!; try done. left. by split.
Qed.

(** ** The tags of one stage *)

Lemma map_fmap {A B} (f : A → B) (l : list A) : map f l = f <$> l.
Proof. induction l as [|x l IH]; simpl; [done|by rewrite IH]. Qed.

Lemma stage_results_tags uuid0 index commands :
  map tag (stage_results uuid0 index commands)
  = (λ i : nat, uuid0 +:+ ":" +:+ pretty i) <$> seq index (length commands).
Proof.
  revert index. induction commands as [|c cs IH]; intros index; simpl; [done|].
  by rewrite IH.
Qed.

Lemma stage_results_NoDup uuid0 index commands :
  NoDup (map tag (stage_results uuid0 index commands)).
Proof.
  rewrite stage_results_tags. apply NoDup_fmap_2; [|apply NoDup_seq].
  intros i j Hij. apply (inj (String.app uuid0)) in Hij.
  apply (inj (String.app ":")) in Hij. by apply (inj pretty) in Hij.
Qed.

Lemma stage_results_Forall uuid0 index commands :
  Forall (λ res, ∃ i : nat, tag res = uuid0 +:+ ":" +:+ pretty i)
         (stage_results uuid0 index commands).
Proof.
  revert index. induction commands as [|c cs IH]; intros index; simpl.
  - constructor.
  - constructor; [by exists index|apply IH].
Qed.

Lemma batch_ok_stage x commands rest :
  batch_ok x {| uuid := pretty x; running := stage_results (pretty x) 0 commands;
                waiting := rest; finished := []; failed := [] |}.
Proof.
  split_and!; simpl; [done|apply stage_results_NoDup|apply stage_results_Forall].
Qed.

(** ** Submitting *)

(** What [submit_request] leaves behind: a new object under the next
    identity and nothing else touched in the store; the registry either as
    it was (the constructor raised) or longer by the new batch, whose first
    stage is running and whose other stages wait. *)
Lemma submit_effect σ request :
  let σ' := exec (submit_request request) σ in
  let self := next_id σ in
  next_id σ' = N.succ self
  ∧ (∀ y, y ≠ self → heap σ' !! y = heap σ !! y)
  ∧ ((is_Some (heap σ' !! self) ∧ requests σ' = requests σ
      ∧ sends_ok (length (default [] (head request))) (faults σ) = false)
     ∨ (requests σ' = requests σ ++ [self]
        ∧ sends_ok (length (default [] (head request))) (faults σ) = true
        ∧ heap σ' !! self
          = Some {| uuid := pretty self;
                    running := stage_results (pretty self) 0 (default [] (head request));
                    waiting := drop 1 request; finished := []; failed := [] |})).
Proof.
  intros σ' self. subst σ' self. unfold exec.
  destruct request as [|first rest].
  - assert (submit_request [] σ
            = (Ok (pretty (next_id σ)), set_requests (requests σ ++ [next_id σ])
                 (CommandsRequest_new [] σ).2)) as ->.
    { unfold submit_request. erewrite bind_ok by apply CommandsRequest_new_empty.
      rewrite CommandsRequest_new_empty. mstep.
      by erewrite bind_ok by (apply get_obj_eq; simpl; apply lookup_insert_eq). }
    rewrite CommandsRequest_new_empty. simpl. split_and!; [done| |].
    + intros y Hy. by rewrite lookup_insert_ne.
    + right. by rewrite lookup_insert_eq.
  - simpl. destruct (sends_ok (length first) (faults σ)) eqn:Hok.
    + assert (CommandsRequest_new (first :: rest) σ
              = (Ok (next_id σ),
                 (CommandsRequest_init (next_id σ) (first :: rest)
                    (set_next_id (N.succ (next_id σ)) σ)).2)) as Hnew.
      { unfold CommandsRequest_new. mstep. mstep.
        erewrite bind_ok by (apply CommandsRequest_init_ok; exact Hok).
        by rewrite CommandsRequest_init_ok by exact Hok. }
      assert (submit_request (first :: rest) σ
              = (Ok (pretty (next_id σ)), set_requests (requests σ ++ [next_id σ])
                   (CommandsRequest_new (first :: rest) σ).2)) as ->.
      { unfold submit_request. erewrite bind_ok by exact Hnew.
        rewrite Hnew, CommandsRequest_init_ok by done. mstep.
        by erewrite bind_ok by (apply get_obj_eq; simpl; apply lookup_insert_eq). }
      rewrite Hnew, CommandsRequest_init_ok by done. simpl. split_and!; [done| |].
      * intros y Hy. by rewrite lookup_insert_ne.
      * right. by rewrite lookup_insert_eq.
    + destruct (CommandsRequest_init_fail (set_next_id (N.succ (next_id σ)) σ)
                  (next_id σ) first rest Hok) as (σ2 & Heq & Hl & Hn & Hq & Hh).
      assert (submit_request (first :: rest) σ
              = (Raise (UnboundLocalError "results"), σ2)) as ->.
      { assert (CommandsRequest_new (first :: rest) σ
                = (Raise (UnboundLocalError "results"), σ2)) as Hnew.
        { unfold CommandsRequest_new. mstep. mstep.
          unfold mbind, M_bind. by rewrite Heq. }
        unfold submit_request, mbind, M_bind. by rewrite Hnew. }
      simpl. split_and!; [done| |].
      * intros y Hy. rewrite Hh. simpl. by rewrite lookup_insert_ne.
      * left. rewrite Hh. simpl. rewrite lookup_insert_eq. by split_and!.
Qed.

(** ** Sweeping and cancelling *)

Lemma Request_delete_eq σ :
  Request_delete σ
  = (Ok (inl (Z.of_nat (length (requests σ))
              - Z.of_nat (length (filter (λ x, negb (holds σ is_finished x))
                                         (requests σ))))%Z),
     set_requests (filter (λ x, negb (holds σ is_finished x)) (requests σ)) σ).
Proof.
  unfold Request_delete, catch, try_except, fmap, M_fmap.
  mstep. mstep. by mstep.
Qed.

Lemma RequestUuid_delete_loop_miss σ uuid0 : ∀ n index : nat,
  index + n = length (requests σ) →
  (∀ x, x ∈ drop index (requests σ) →
        ∃ b, heap σ !! x = Some b ∧ uuid b ≠ uuid0) →
  RequestUuid_delete_loop n index uuid0 σ = (Ok false, σ).
Proof.
  induction n as [|n IH]; intros index Hlen Hmiss; [done|].
  simpl. mstep.
  destruct (requests σ !! index) as [x|] eqn:Hx.
  - destruct (Hmiss x) as (b & Hb & Hne).
    { rewrite (drop_S _ _ _ Hx). by left. }
    erewrite bind_ok by (by apply get_obj_eq).
    rewrite decide_False by done.
    apply IH; [lia|]. intros y Hy. apply Hmiss.
    rewrite (drop_S _ _ _ Hx). by right.
  - apply lookup_ge_None in Hx. lia.
Qed.

Lemma RequestUuid_delete_loop_hit σ uuid0 (j : nat) x b : ∀ n index : nat,
  index + n = length (requests σ) →
  index ≤ j →
  requests σ !! j = Some x →
  heap σ !! x = Some b →
  uuid b = uuid0 →
  (∀ k y, index ≤ k < j → requests σ !! k = Some y →
          ∃ c, heap σ !! y = Some c ∧ uuid c ≠ uuid0) →
  RequestUuid_delete_loop n index uuid0 σ
  = (Ok true, set_requests (delete j (requests σ)) σ).
Proof.
  induction n as [|n IH]; intros index Hlen Hle Hj Hb Hu Hbefore.
  { apply lookup_lt_Some in Hj. lia. }
  simpl. mstep.
  destruct (decide (index = j)) as [->|Hne].
  - rewrite Hj. erewrite bind_ok by (by apply get_obj_eq).
    rewrite decide_True by done. by mstep.
  - destruct (requests σ !! index) as [y|] eqn:Hy.
    + destruct (Hbefore index y) as (c & Hc & Hcu); [lia|done|].
      erewrite bind_ok by (by apply get_obj_eq).
      rewrite decide_False by done.
      apply IH; try done; try lia. intros k z Hk. apply Hbefore. lia.
    + apply lookup_ge_None in Hy. apply lookup_lt_Some in Hj. lia.
Qed.

Lemma RequestUuid_delete_miss σ uuid0 :
  (∀ x, x ∈ requests σ → ∃ b, heap σ !! x = Some b ∧ uuid b ≠ uuid0) →
  RequestUuid_delete uuid0 σ = (Ok (inl false), σ).
Proof.
  intros Hmiss. unfold RequestUuid_delete, catch, try_except, fmap, M_fmap.
  mstep. rewrite (RequestUuid_delete_loop_miss σ uuid0); [done|done|].
  by rewrite drop_0.
Qed.

Lemma RequestUuid_delete_hit σ uuid0 l1 x l2 b :
  requests σ = l1 ++ x :: l2 →
  heap σ !! x = Some b →
  uuid b = uuid0 →
  (∀ y, y ∈ l1 → ∃ c, heap σ !! y = Some c ∧ uuid c ≠ uuid0) →
  RequestUuid_delete uuid0 σ = (Ok (inl true), set_requests (l1 ++ l2) σ).
Proof.
  intros Hreq Hb Hu Hl1. unfold RequestUuid_delete, catch, try_except, fmap, M_fmap.
  mstep. rewrite (RequestUuid_delete_loop_hit σ uuid0 (length l1) x b);
    try done; try lia.
  - by rewrite Hreq, delete_middle.
  - rewrite Hreq. by apply list_lookup_middle.
  - intros k y [_ Hk]. rewrite Hreq, lookup_app_l by done.
    intros Hy. apply Hl1. by eapply list_elem_of_lookup_2.
Qed.

(** The first registered batch with the given [uuid], when the registry is
    sound. *)
Lemma first_with_uuid σ uuid0 :
  refs_valid σ →
  (∀ x, x ∈ requests σ → ∃ b, heap σ !! x = Some b ∧ uuid b ≠ uuid0)
  ∨ ∃ l1 x l2 b,
      requests σ = l1 ++ x :: l2 ∧ heap σ !! x = Some b ∧ uuid b = uuid0
      ∧ ∀ y, y ∈ l1 → ∃ c, heap σ !! y = Some c ∧ uuid c ≠ uuid0.
Proof.
  unfold refs_valid. induction (requests σ) as [|x l IH]; intros Hv.
  - left. intros x Hx. by apply elem_of_nil in Hx.
  - destruct (Hv x) as [b Hb]; [by left|].
    destruct (decide (uuid b = uuid0)) as [Hu|Hu].
    + right. exists [], x, l, b. split_and!; try done.
      intros y Hy. by apply elem_of_nil in Hy.
    + destruct IH as [Hmiss|(l1 & y & l2 & c & -> & Hc & Hcu & Hl1)].
      * intros y Hy. apply Hv. by right.
      * left. intros y [->|Hy]%elem_of_cons; eauto.
      * right. exists (x :: l1), y, l2, c. split_and!; try done.
        intros z [->|Hz]%elem_of_cons; eauto.
Qed.

Lemma RequestUuid_delete_effect σ uuid0 :
  refs_valid σ →
  let σ' := exec (RequestUuid_delete uuid0) σ in
  heap σ' = heap σ ∧ next_id σ' = next_id σ ∧ requests σ' `sublist_of` requests σ.
Proof.
  intros Hv σ'. subst σ'. unfold exec.
  destruct (first_with_uuid σ uuid0 Hv) as [Hmiss|(l1 & x & l2 & b & Hreq & Hb & Hu & Hl1)].
  - by rewrite RequestUuid_delete_miss.
  - rewrite (RequestUuid_delete_hit σ uuid0 l1 x l2 b) by done. simpl.
    split_and!; [done..|]. rewrite Hreq. apply sublist_app; [done|]. by apply sublist_cons.
Qed.

(** ** The registry stays sound *)

Lemma map_tag_alter rv index (l : list CommandResult) :
  map tag (alter (set_r rv) index l) = map tag l.
Proof.
  revert index. induction l as [|x l IH]; intros [|index]; simpl; try done.
  f_equal. apply IH.
Qed.

Lemma batch_ok_complete x b index rv :
  batch_ok x b → batch_ok x (set_running (alter (set_r rv) index (running b)) b).
Proof.
  intros (Hu & Hnd & Hall). split_and!; simpl; [done|by rewrite map_tag_alter|].
  apply Forall_alter; [done|]. by intros y _ Hy.
Qed.

Lemma NoDup_map_tag_delete index (l : list CommandResult) :
  NoDup (map tag l) → NoDup (map tag (delete index l)).
Proof.
  rewrite !map_fmap, list_fmap_delete. intros Hnd.
  apply (sublist_NoDup _ (tag <$> l)); [done|apply sublist_delete].
Qed.

Lemma batch_ok_resolved x b index y :
  batch_ok x b → batch_ok x (resolved b index y).
Proof.
  intros (Hu & Hnd & Hall). unfold resolved.
  destruct (decide (r y = 0%Z));
    (split_and!; simpl; [done|by apply NoDup_map_tag_delete|by apply Forall_delete]).
Qed.

Lemma batch_ok_routed fs x tag0 b b' :
  batch_ok x b → routed fs tag0 b b' → batch_ok x b'.
Proof.
  intros Hok (l1 & y & l2 & Hr & Hy & Hl1 & Hcase).
  pose proof (batch_ok_resolved x b (length l1) y Hok) as Hok1.
  destruct Hcase as [[_ ->]|(Hready & commands & rest & Hw & [[_ ->]|[_ ->]])]; [done|..].
  - destruct Hok1 as (Hu & _ & _). rewrite Hu.
    split_and!; simpl; [done|apply stage_results_NoDup|apply stage_results_Forall].
  - destruct Hok1 as (Hu & Hnd & Hall). by split_and!.
Qed.

Lemma registry_ok_refs_valid σ : registry_ok σ → refs_valid σ.
Proof. intros [_ Hreg] x Hx. destruct (Hreg x Hx) as (_ & b & Hb & _). eauto. Qed.

Lemma registry_ok_sub σ σ' :
  registry_ok σ →
  heap σ' = heap σ → next_id σ' = next_id σ →
  requests σ' `sublist_of` requests σ →
  registry_ok σ'.
Proof.
  intros [Hnd Hreg] Hh Hn Hsub. split.
  - by eapply sublist_NoDup; [exact Hnd|].
  - intros x Hx. rewrite Hh, Hn. apply Hreg. by eapply elem_of_sublist.
Qed.

Lemma registry_ok_update σ σ' x b' :
  registry_ok σ →
  requests σ' = requests σ → next_id σ' = next_id σ →
  heap σ' = <[x := b']> (heap σ) →
  (x ∈ requests σ → batch_ok x b') →
  registry_ok σ'.
Proof.
  intros [Hnd Hreg] Hq Hn Hh Hb'. split; [by rewrite Hq|].
  intros y Hy. rewrite Hq in Hy. rewrite Hn, Hh.
  destruct (Hreg y Hy) as (Hlt & b & Hb & Hok). split; [done|].
  destruct (decide (x = y)) as [->|Hne].
  - rewrite lookup_insert_eq. eauto.
  - rewrite lookup_insert_ne by done. eauto.
Qed.


Lemma notify_registry_ok σ notify_type tag0 :
  registry_ok σ → registry_ok (exec (notify notify_type tag0) σ).
Proof.
  intros Hreg.
  destruct (notify_effect σ notify_type tag0)
    as (Hq & Hn & [Hh|(x & b & b' & Hc & Hb & Hrouted & Hh)]).
  - apply (registry_ok_sub σ); try done. by rewrite Hq.
  - apply (registry_ok_update σ _ x b'); try done.
    intros Hx. destruct Hreg as [_ Hreg].
    destruct (Hreg x Hx) as (_ & b0 & Hb0 & Hok). simplify_eq.
    by eapply batch_ok_routed.
Qed.

Lemma OnCompletion_cases σ self index rv :
  exec (OnCompletion self index rv) σ = σ
  ∨ ∃ b x, heap σ !! self = Some b ∧ running b !! index = Some x
           ∧ exec (OnCompletion self index rv) σ
             = exec (notify "command" (tag x))
                 (set_heap (<[self := set_running (alter (set_r rv) index (running b)) b]>
                              (heap σ)) σ).
Proof.
  unfold exec, OnCompletion, mbind, M_bind, get_obj.
  destruct (heap σ !! self) as [b|] eqn:Hb; [|by left].
  destruct (running b !! index) as [x|] eqn:Hx; [|by left].
  right. exists b, x. split_and!; [done..|].
  unfold complete. by rewrite (update_obj_eq _ _ _ _ Hb).
Qed.

Lemma do_event_registry_ok e σ : registry_ok σ → registry_ok (do_event e σ).
Proof.
  intros Hreg. destruct e as [request|self index rv|notify_type tag0| |uuid0]; simpl.
  - destruct (submit_effect σ request) as (Hn & Hh & [(_ & Hq & _)|(Hq & _ & Hb)]).
    + destruct Hreg as [Hnd Hreg]. split; [by rewrite Hq|].
      intros x Hx. rewrite Hq in Hx. destruct (Hreg x Hx) as (Hlt & b & Hb & Hok).
      rewrite Hn, Hh by lia. split; [lia|eauto].
    + destruct Hreg as [Hnd Hreg]. split.
      * rewrite Hq. apply NoDup_app. split_and!; [done| |apply NoDup_singleton].
        intros x Hx ->%list_elem_of_singleton. destruct (Hreg _ Hx) as [Hlt _]. lia.
      * intros x Hx. rewrite Hq in Hx. rewrite Hn.
        apply elem_of_app in Hx as [Hx| ->%list_elem_of_singleton].
        -- destruct (Hreg x Hx) as (Hlt & b & Hbx & Hok).
           rewrite Hh by lia. split; [lia|eauto].
        -- split; [lia|]. eexists. split; [exact Hb|]. apply batch_ok_stage.
  - destruct (OnCompletion_cases σ self index rv) as [->|(b & x & Hb & Hx & ->)]; [done|].
    apply notify_registry_ok.
    eapply (registry_ok_update σ _ self); try done.
    intros Hin. destruct Hreg as [_ Hreg].
    destruct (Hreg self Hin) as (_ & b0 & Hb0 & Hok). simplify_eq.
    by apply batch_ok_complete.
  - by apply notify_registry_ok.
  - unfold exec. rewrite Request_delete_eq. simpl.
    apply (registry_ok_sub σ); try done. apply sublist_filter.
  - destruct (RequestUuid_delete_effect σ uuid0) as (Hh & Hn & Hsub).
    { by apply registry_ok_refs_valid. }
    by apply (registry_ok_sub σ).
Qed.

Lemma do_events_registry_ok es : ∀ σ, registry_ok σ → registry_ok (do_events es σ).
Proof.
  induction es as [|e es IH]; intros σ Hreg; [done|].
  unfold do_events. simpl. apply IH. by apply do_event_registry_ok.
Qed.

Lemma Module_init_registry_ok fs : registry_ok (Module_init fs).
Proof.
  split; simpl; [constructor|]. intros x Hx. by apply elem_of_nil in Hx.
Qed.

(** ** At most one batch claims a tag *)

Lemma claimant_tag σ tag0 x :
  registry_ok σ → x ∈ claimants σ tag0 →
  ∃ i : nat, tag0 = pretty x +:+ ":" +:+ pretty i.
Proof.
  intros [_ Hreg] Hx. apply list_elem_of_filter in Hx as [Hrun Hx].
  destruct (Hreg x Hx) as (_ & b & Hb & _ & _ & Hall).
  apply Is_true_true, holds_true in Hrun as (b0 & Hb0 & Hrun). simplify_eq.
  apply is_running_true in Hrun as (l1 & y & l2 & Hr & Hy & _).
  rewrite Forall_forall in Hall. destruct (Hall y) as [i Hi].
  - rewrite Hr. apply elem_of_app. right. by left.
  - exists i. by rewrite <-Hy.
Qed.

Lemma NoDup_all_equal {A} (l : list A) :
  NoDup l → (∀ x y, x ∈ l → y ∈ l → x = y) → length l ≤ 1.
Proof.
  intros Hnd Heq. destruct l as [|x [|y l]]; simpl; try lia.
  assert (x = y) as -> by (apply Heq; [by left|by right; left]).
  apply NoDup_cons in Hnd as [Hnd _]. destruct Hnd. by left.
Qed.

Lemma claimants_unique σ tag0 : registry_ok σ → length (claimants σ tag0) ≤ 1.
Proof.
  intros Hreg. apply NoDup_all_equal.
  - apply NoDup_filter. by destruct Hreg.
  - intros x y [i Hx]%(claimant_tag σ tag0) [j Hy]%(claimant_tag σ tag0); try done.
    rewrite Hx in Hy. apply tag_split in Hy as [Hxy _]; try apply pretty_N_no_colon.
    by apply (inj pretty) in Hxy.
Qed.

Lemma claimants_single σ tag0 x b :
  registry_ok σ → x ∈ requests σ → heap σ !! x = Some b →
  is_running b tag0 = true → claimants σ tag0 = [x].
Proof.
  intros Hreg Hx Hb Hrun.
  assert (x ∈ claimants σ tag0) as Hin.
  { apply list_elem_of_filter. split; [|done]. unfold holds. rewrite Hb. simpl.
    by rewrite Hrun. }
  pose proof (claimants_unique σ tag0 Hreg) as Hlen.
  destruct (claimants σ tag0) as [|y [|z l]]; simpl in Hlen; try lia.
  - by apply elem_of_nil in Hin.
  - by apply list_elem_of_singleton in Hin as ->.
Qed.

(** The one place of a tag in a list of invocations with distinct tags. *)
Lemma NoDup_tag_position (l l1 l2 : list CommandResult) y (i : nat) x :
  NoDup (map tag l) → l = l1 ++ y :: l2 → l !! i = Some x → tag y = tag x →
  length l1 = i ∧ y = x.
Proof.
  intros Hnd -> Hi Hy.
  assert ((l1 ++ y :: l2) !! length l1 = Some y) as Hl1 by (by apply list_lookup_middle).
  assert (length l1 = i) as <-.
  { rewrite map_fmap in Hnd. eapply NoDup_lookup; [exact Hnd|..].
    - rewrite list_lookup_fmap, Hl1. simpl. done.
    - rewrite list_lookup_fmap, Hi. simpl. by rewrite Hy. }
  split; [done|]. congruence.
Qed.

(** A notification whose tag one batch claims is routed to it. *)
Lemma notify_routed σ tag0 x :
  claimants σ tag0 = [x] →
  let σ' := exec (notify "command" tag0) σ in
  requests σ' = requests σ ∧ next_id σ' = next_id σ
  ∧ ∃ b b', heap σ !! x = Some b ∧ routed (faults σ) tag0 b b'
            ∧ heap σ' = <[x := b']> (heap σ).
Proof.
  intros Hc.
  destruct (notify_effect σ "command" tag0)
    as (Hq & Hn & [Hh|(x' & b & b' & Hc' & Hb & Hrouted & Hh)]).
  - (* the store is as before only if the step changed nothing *)
    split_and!; [done..|].
    assert (x ∈ claimants σ tag0) as Hin by (rewrite Hc; by left).
    apply list_elem_of_filter in Hin as [Hin _].
    apply Is_true_true, holds_true in Hin as (b & Hb & Hrun).
    exfalso. revert Hh. unfold exec, notify, try_except.
    apply is_running_true in Hrun as (l1 & y & l2 & Hr & Hy & Hl1).
    rewrite (_notify_route σ tag0 x b l1 y l2) by done.
    set (b1 := resolved b (length l1) y).
    assert (b1 ≠ b) as Hne.
    { intros Heq. apply (f_equal (λ c, length (running c))) in Heq. revert Heq.
      subst b1. unfold resolved. destruct (decide (r y = 0%Z)); simpl;
        rewrite Hr, delete_middle, !length_app; simpl; lia. }
    destruct (is_ready b1) eqn:Hready.
    + apply is_ready_resolved_running in Hready as (Hr1 & commands & rest & Hw1).
      rewrite next_set_log.
      set (σ1 := set_heap (<[x:=b1]> (heap σ)) σ).
      assert (heap σ1 !! x = Some b1) as Hb1 by (simpl; apply lookup_insert_eq).
      assert (∃ b', heap (next x σ1).2 = <[x := b']> (heap σ)
                    ∧ waiting b' = rest) as (b' & Hh' & Hw').
      { destruct (sends_ok (length commands) (faults σ1)) eqn:Hok.
        - rewrite (next_ok σ1 x b1 commands rest) by done. simpl.
          rewrite insert_insert_eq. eauto.
        - destruct (next_fail σ1 x b1 commands rest Hb1 Hw1 Hok) as (_ & Hh' & _).
          rewrite Hh'. simpl. rewrite insert_insert_eq. eauto. }
      assert (heap σ !! x ≠ Some b') as Hdiff.
      { rewrite Hb. intros [= <-]. revert Hw1. subst b1. unfold resolved.
        destruct (decide (r y = 0%Z)); simpl; intros Hw1;
          apply (f_equal length) in Hw1; simpl in Hw1; rewrite Hw' in Hw1; lia. }
      destruct (next x σ1) as [[[]|e] σ2]; simpl in *; intros Hh;
        rewrite Hh' in Hh; apply Hdiff; by rewrite <-Hh, lookup_insert_eq.
    + simpl. intros Hh. apply Hne.
      assert (<[x:=b1]> (heap σ) !! x = heap σ !! x) as Hlk by (by rewrite Hh).
      rewrite lookup_insert_eq, Hb in Hlk. congruence.
  - rewrite Hc in Hc'. simplify_eq. split_and!; [done..|]. eauto.
Qed.

(** ** A batch with nothing running is out of every event's reach *)

Lemma RequestUuid_delete_loop_frame uuid0 σ : ∀ n index : nat,
  heap (RequestUuid_delete_loop n index uuid0 σ).2 = heap σ
  ∧ next_id (RequestUuid_delete_loop n index uuid0 σ).2 = next_id σ.
Proof.
  induction n as [|n IH]; intros index; [done|].
  simpl. mstep. destruct (requests σ !! index) as [x|]; [|done].
  unfold mbind, M_bind, get_obj. destruct (heap σ !! x) as [b|]; [|done].
  destruct (decide (uuid b = uuid0)); [done|apply IH].
Qed.

Lemma RequestUuid_delete_frame uuid0 σ :
  heap (exec (RequestUuid_delete uuid0) σ) = heap σ
  ∧ next_id (exec (RequestUuid_delete uuid0) σ) = next_id σ.
Proof.
  unfold exec, RequestUuid_delete, catch, try_except, fmap, M_fmap. mstep.
  pose proof (RequestUuid_delete_loop_frame uuid0 σ (length (requests σ)) 0) as [Hh Hn].
  by destruct (RequestUuid_delete_loop _ _ _ σ) as [[?|?] σ2].
Qed.

Lemma routed_running fs tag0 b b' : routed fs tag0 b b' → running b ≠ [].
Proof. intros (l1 & y & l2 & -> & _). by destruct l1. Qed.

Lemma notify_frozen σ notify_type tag0 x b :
  heap σ !! x = Some b → running b = [] →
  heap (exec (notify notify_type tag0) σ) !! x = Some b.
Proof.
  intros Hb Hrun.
  destruct (notify_effect σ notify_type tag0)
    as (_ & _ & [->|(x' & b0 & b' & _ & Hb0 & Hrouted & ->)]); [done|].
  destruct (decide (x' = x)) as [->|Hne].
  - simplify_eq. by apply routed_running in Hrouted.
  - by rewrite lookup_insert_ne.
Qed.

Lemma do_event_frozen e σ x b :
  heap σ !! x = Some b → (x < next_id σ)%N → running b = [] →
  heap (do_event e σ) !! x = Some b ∧ (x < next_id (do_event e σ))%N.
Proof.
  intros Hb Hlt Hrun.
  destruct e as [request|self index rv|notify_type tag0| |uuid0]; cbn [do_event].
  - destruct (submit_effect σ request) as (Hn & Hh & _).
    rewrite Hn, Hh by lia. split; [done|lia].
  - destruct (OnCompletion_cases σ self index rv) as [->|(b0 & x0 & Hb0 & Hx0 & ->)];
      [done|].
    destruct (notify_effect (set_heap (<[self:=set_running
        (alter (set_r rv) index (running b0)) b0]> (heap σ)) σ) "command" (tag x0))
      as (_ & -> & _).
    split; [|done]. apply notify_frozen; [|done]. simpl.
    rewrite lookup_insert_ne; [done|]. intros ->. simplify_eq.
    by rewrite Hrun in Hx0.
  - destruct (notify_effect σ notify_type tag0) as (_ & -> & _).
    split; [|done]. by apply notify_frozen.
  - unfold exec. by rewrite Request_delete_eq.
  - by destruct (RequestUuid_delete_frame uuid0 σ) as [-> ->].
Qed.

Lemma do_events_frozen es : ∀ σ x b,
  heap σ !! x = Some b → (x < next_id σ)%N → running b = [] →
  heap (do_events es σ) !! x = Some b.
Proof.
  induction es as [|e es IH]; intros σ x b Hb Hlt Hrun; [done|].
  unfold do_events. simpl.
  destruct (do_event_frozen e σ x b Hb Hlt Hrun) as [Hb' Hlt'].
  by apply IH.
Qed.

(** ** What a dispatch hands to the control plane *)

Lemma map_pair_zip {A B C} (f : A → B) (g : A → C) (l : list A) :
  map (λ x, (f x, g x)) l = zip (map f l) (map g l).
Proof. induction l as [|x l IH]; simpl; [done|by rewrite IH]. Qed.

Lemma stage_results_r uuid0 index commands :
  Forall (λ x, r x = r_init) (stage_results uuid0 index commands).
Proof.
  revert index. induction commands as [|c cs IH]; intros index; simpl; constructor;
    [done|apply IH].
Qed.

(** X1: when none of the sends of a stage raises, [run] hands every command
    of the stage to the control plane once, in order, each with the tag
    [<uuid>:<position>], and returns one invocation per command, in the
    same order and with the same tags; nothing but the record of sends and
    the fault schedule changes. *)
Theorem run_sends_each_command σ commands uuid0 :
  sends_ok (length commands) (faults σ) = true →
  ∃ results σ',
    run commands uuid0 σ = (Ok results, σ')
    ∧ map command results = commands
    ∧ map tag results
      = (λ i : nat, uuid0 +:+ ":" +:+ pretty i) <$> seq 0 (length commands)
    ∧ Forall (λ x, r x = r_init) results
    ∧ sent σ' = sent σ ++ zip (map tag results) commands
    ∧ faults σ' = drop (length commands) (faults σ)
    ∧ log σ' = log σ ∧ heap σ' = heap σ ∧ requests σ' = requests σ.
Proof.
  intros Hok. unfold run. rewrite run_loop_ok by done. do 2 eexists.
  split; [reflexivity|]. simpl.
  split_and!; try done.
  - apply stage_results_commands.
  - apply stage_results_tags.
  - apply stage_results_r.
  - by rewrite map_pair_zip, stage_results_commands.
Qed.

Lemma run_loop_partial commands : ∀ (k index : nat) uuid0 acc σ fs,
  faults σ = replicate k false ++ true :: fs →
  k < length commands →
  let res := run_loop commands index uuid0 acc σ in
  res.1 = Raise SendError
  ∧ sent res.2
    = sent σ ++ map (λ x, (tag x, command x)) (stage_results uuid0 index (take k commands))
  ∧ faults res.2 = fs.
Proof.
  induction commands as [|c cs IH]; intros k index uuid0 acc σ fs Hf Hk; simpl in Hk;
    [lia|].
  simpl. unfold mbind, M_bind, send_command. rewrite Hf.
  destruct k as [|k]; simpl.
  - by rewrite app_nil_r.
  - destruct (IH k (S index) uuid0
                (acc ++ [{| tag := uuid0 +:+ ":" +:+ pretty index; command := c;
                            r := r_init |}])
                (set_sent (sent σ ++ [(uuid0 +:+ ":" +:+ pretty index, c)])
                   (set_faults (replicate k false ++ true :: fs) σ)) fs)
      as (H1 & H2 & H3); [done|lia|].
    split_and!; [done| |done]. rewrite H2. simpl. by rewrite <-app_assoc.
Qed.

(** X2: when the first [k] sends of a stage go through and the next one
    raises, [run] raises, and yet the first [k] commands have been handed
    to the control plane with their tags; the invocations built for them
    are lost with the exception, and the store, the registry and the log
    are as before. *)
Theorem run_partial_dispatch σ commands uuid0 (k : nat) fs :
  faults σ = replicate k false ++ true :: fs →
  k < length commands →
  let res := run commands uuid0 σ in
  res.1 = Raise SendError
  ∧ sent res.2
    = sent σ ++ zip ((λ i : nat, uuid0 +:+ ":" +:+ pretty i) <$> seq 0 k)
                    (take k commands)
  ∧ faults res.2 = fs
  ∧ log res.2 = log σ ∧ heap res.2 = heap σ ∧ requests res.2 = requests σ.
Proof.
  intros Hf Hk res. subst res. unfold run.
  destruct (run_loop_partial commands k 0 uuid0 [] σ fs Hf Hk) as (H1 & H2 & H3).
  destruct (run_loop_frame commands 0 uuid0 [] σ) as (Hl & _ & Hh & Hq).
  split_and!; try done.
  rewrite H2, map_pair_zip, stage_results_commands, stage_results_tags.
  by rewrite length_take_le by lia.
Qed.

(** ** The router *)

(** X3: [notify] returns normally on every input and in every state.  It
    leaves the registry as it is, and it leaves as it is every batch that
    is not registered, every batch that runs no invocation with the
    notified tag, and, for a notification type other than ["command"],
    every batch. *)
Theorem notify_is_local σ notify_type tag0 :
  let σ' := exec (notify notify_type tag0) σ in
  (notify notify_type tag0 σ).1 = Ok tt
  ∧ requests σ' = requests σ
  ∧ (notify_type ≠ "command" → heap σ' = heap σ)
  ∧ (∀ x b, heap σ !! x = Some b →
            x ∉ requests σ ∨ is_running b tag0 = false →
            heap σ' !! x = Some b).
Proof.
  intros σ'. subst σ'. split; [apply notify_never_raises|].
  destruct (notify_effect σ notify_type tag0) as (Hq & _ & Hcases).
  split; [done|]. split.
  - intros Hty. unfold exec, notify, try_except, _notify.
    by rewrite decide_False by done.
  - intros x b Hb Hx.
    destruct Hcases as [->|(x' & b0 & b' & Hc & Hb0 & Hrouted & ->)]; [done|].
    destruct (decide (x' = x)) as [->|Hne]; [|by rewrite lookup_insert_ne].
    exfalso. assert (b0 = b) as -> by congruence.
    assert (x ∈ claimants σ tag0) as Hin by (rewrite Hc; by left).
    apply list_elem_of_filter in Hin as [Hrun Hin].
    destruct Hx as [Hx|Hx]; [done|].
    unfold holds in Hrun. rewrite Hb in Hrun. simpl in Hrun. by rewrite Hx in Hrun.
Qed.

(** X4: from a fresh module on, whatever is submitted, reported, notified,
    swept or cancelled and whichever sends raise, the registry is sound: no
    batch is registered twice, every registered batch carries its own
    identity as [uuid], and the invocations in its [running] list carry
    pairwise distinct tags of the form [<uuid>:<position>]. *)
Theorem registry_invariant (fs : list bool) (es : list event) :
  registry_ok (do_events es (Module_init fs)).
Proof. apply do_events_registry_ok, Module_init_registry_ok. Qed.

(** X5: in no state that a module reaches do two registered batches run an
    invocation with the same tag: the router never has to drop a
    completion because several batches claim it. *)
Theorem router_never_ambiguous (fs : list bool) (es : list event) tag0 :
  length (claimants (do_events es (Module_init fs)) tag0) ≤ 1.
Proof.
  apply claimants_unique, do_events_registry_ok, Module_init_registry_ok.
Qed.

(** ** A completion reaches the invocation it is about *)

Lemma OnCompletion_eq σ self b index x rv :
  heap σ !! self = Some b → running b !! index = Some x →
  OnCompletion self index rv σ
  = notify "command" (tag x)
      (set_heap (<[self := set_running (alter (set_r rv) index (running b)) b]>
                   (heap σ)) σ).
Proof.
  intros Hb Hx. unfold OnCompletion.
  erewrite bind_ok by (by apply get_obj_eq). rewrite Hx.
  unfold complete. by erewrite bind_ok by (by apply update_obj_eq).
Qed.

Lemma delete_alter {A} (f : A → A) (index : nat) (l : list A) :
  delete index (alter f index l) = delete index l.
Proof.
  revert index. induction l as [|x l IH]; intros [|index]; simpl; try done.
  f_equal. apply IH.
Qed.

Lemma is_running_elem b x :
  x ∈ running b → is_running b (tag x) = true.
Proof.
  intros Hx. destruct (is_running b (tag x)) eqn:Hrun; [done|].
  rewrite is_running_false in Hrun. by destruct (Hrun x Hx).
Qed.

(** X6: in a sound registry, a completion that the control plane reports
    for the invocation at position [index] of [running] of a registered
    batch is applied to that very invocation and to no other batch: it
    leaves [running] for [finished] when the return code is 0 and for
    [failed] otherwise, with the return code stored.  If other invocations
    of the stage are still running, nothing else changes; once the stage is
    empty the next waiting stage, if any, leaves [waiting] and is
    dispatched, or dropped if one of its sends raises. *)
Theorem completion_resolves_its_invocation σ self b (index : nat) x rv :
  registry_ok σ →
  self ∈ requests σ →
  heap σ !! self = Some b →
  running b !! index = Some x →
  let σ' := exec (OnCompletion self index rv) σ in
  requests σ' = requests σ
  ∧ (∀ y, y ≠ self → heap σ' !! y = heap σ !! y)
  ∧ ∃ b', heap σ' !! self = Some b'
      ∧ uuid b' = uuid b
      ∧ finished b'
        = (if decide (rv = 0%Z) then finished b ++ [set_r rv x] else finished b)
      ∧ failed b'
        = (if decide (rv = 0%Z) then failed b else failed b ++ [set_r rv x])
      ∧ match delete index (running b), waiting b with
        | [], commands :: rest =>
            waiting b' = rest
            ∧ running b' = (if sends_ok (length commands) (faults σ)
                            then stage_results (uuid b) 0 commands else [])
        | still, w => running b' = still ∧ waiting b' = w
        end.
Proof.
  intros Hreg Hin Hb Hx σ'. subst σ'. unfold exec.
  rewrite (OnCompletion_eq σ self b index x rv) by done.
  set (bc := set_running (alter (set_r rv) index (running b)) b).
  set (σ1 := set_heap (<[self:=bc]> (heap σ)) σ).
  assert (registry_ok σ1) as Hreg1.
  { apply (registry_ok_update σ σ1 self bc); try done.
    intros _. destruct Hreg as [_ Hreg].
    destruct (Hreg self Hin) as (_ & b0 & Hb0 & Hok). simplify_eq.
    by apply batch_ok_complete. }
  assert (heap σ1 !! self = Some bc) as Hbc by (simpl; apply lookup_insert_eq).
  assert (running bc !! index = Some (set_r rv x)) as Hxc.
  { subst bc. simpl. by rewrite list_lookup_alter_eq, Hx. }
  assert (claimants σ1 (tag x) = [self]) as Hc.
  { apply (claimants_single σ1 (tag x) self bc); try done.
    apply (is_running_elem bc (set_r rv x)). by eapply list_elem_of_lookup_2. }
  destruct (notify_routed σ1 (tag x) self Hc)
    as (Hq & _ & b0 & b' & Hb0 & (l1 & y & l2 & Hr & Hy & Hl1 & Hcase) & Hh).
  assert (b0 = bc) as -> by congruence.
  destruct Hreg1 as [_ Hreg1].
  destruct (Hreg1 self Hin) as (_ & b0 & Hb0' & _ & Hnd & _).
  assert (b0 = bc) as -> by congruence.
  destruct (NoDup_tag_position (running bc) l1 l2 y index (set_r rv x) Hnd Hr Hxc Hy)
    as [Hlen ->].
  rewrite Hlen in Hcase.
  change (exec (notify "command" (tag x)) σ1) with ((notify "command" (tag x) σ1).2) in *.
  rewrite Hq, Hh. simpl. split; [done|]. split.
  { intros z Hz. by rewrite !lookup_insert_ne. }
  exists b'. rewrite lookup_insert_eq. split; [done|].
  assert (running (resolved bc index (set_r rv x)) = delete index (running b)
          ∧ waiting (resolved bc index (set_r rv x)) = waiting b) as [Hr1 Hw1].
  { unfold resolved. destruct (decide (r (set_r rv x) = 0%Z)); simpl;
      by rewrite delete_alter. }
  assert (uuid (resolved bc index (set_r rv x)) = uuid b
          ∧ finished (resolved bc index (set_r rv x))
            = (if decide (rv = 0%Z) then finished b ++ [set_r rv x] else finished b)
          ∧ failed (resolved bc index (set_r rv x))
            = (if decide (rv = 0%Z) then failed b else failed b ++ [set_r rv x]))
    as (Hu1 & Hf1 & Hfl1).
  { unfold resolved. simpl. by destruct (decide (rv = 0%Z)). }
  destruct Hcase as [[Hready ->]|(Hready & commands & rest & Hw & Hb')].
  - split_and!; try done. rewrite Hr1, Hw1.
    unfold is_ready in Hready. rewrite Hr1, Hw1 in Hready.
    by destruct (delete index (running b)), (waiting b).
  - apply is_ready_true in Hready as [Hrun1 _]. pose proof Hrun1 as Hrun0.
    rewrite Hr1 in Hrun1. rewrite Hw1 in Hw. rewrite Hrun1, Hw.
    destruct Hb' as [[Hok ->]|[Hok ->]]; change (faults σ1) with (faults σ) in Hok;
      simpl; rewrite Hok, ?Hu1; by split_and!.
Qed.

(** ** Batches that can no longer move *)

(** X7: a batch with nothing in [running] is out of reach.  No submission,
    completion report, notification, sweep or cancellation, in any number
    and order, changes the object: what it holds in [waiting], [finished]
    and [failed] stays, and nothing enters [running]. *)
Theorem idle_batch_is_frozen σ x b (es : list event) :
  heap σ !! x = Some b →
  (x < next_id σ)%N →
  running b = [] →
  heap (do_events es σ) !! x = Some b.
Proof. apply do_events_frozen. Qed.

(** X8: a submission whose first stage is empty and which has further
    stages is registered with nothing running and those stages waiting.
    It is ready, but nothing ever advances it: after any events its stages
    still wait and its state is still ["pending"]. *)
Theorem empty_first_stage_stalls σ stage rest (es : list event) :
  let x := next_id σ in
  let σ1 := exec (submit_request ([] :: stage :: rest)) σ in
  x ∈ requests σ1
  ∧ ∃ b, heap (do_events es σ1) !! x = Some b
         ∧ running b = [] ∧ waiting b = stage :: rest
         ∧ is_ready b = true ∧ get_state b = "pending".
Proof.
  intros x σ1. subst x σ1.
  destruct (submit_effect σ ([] :: stage :: rest)) as (Hn & _ & [(_ & _ & Hok)|(Hq & _ & Hb)]);
    [done|].
  simpl in Hb. split.
  - rewrite Hq. apply elem_of_app. right. by left.
  - eexists. split; [apply do_events_frozen; [exact Hb|lia|done]|done].
Qed.

(** X9: when the completion of the last running invocation of a stage
    reaches the router and a send of the next stage raises, [notify] still
    returns normally and logs the error; the invocation is resolved, the
    next stage has left [waiting] without entering [running], and from
    then on no event changes the batch: the stages behind the dropped one
    are never dispatched. *)
Theorem advance_failure_skips_stage σ tag0 x b y commands rest (es : list event) :
  claimants σ tag0 = [x] →
  heap σ !! x = Some b →
  (x < next_id σ)%N →
  running b = [y] →
  waiting b = commands :: rest →
  sends_ok (length commands) (faults σ) = false →
  let σ' := exec (notify "command" tag0) σ in
  let b' := {| uuid := uuid b; running := []; waiting := rest;
               finished := if decide (r y = 0%Z) then finished b ++ [y] else finished b;
               failed := if decide (r y = 0%Z) then failed b else failed b ++ [y] |} in
  (notify "command" tag0 σ).1 = Ok tt
  ∧ last (log σ') = Some (LogError SendError)
  ∧ heap σ' !! x = Some b'
  ∧ heap (do_events es σ') !! x = Some b'.
Proof.
  intros Hc Hb Hlt Hrun Hw Hok σ' b'.
  assert (tag y = tag0) as Hy.
  { assert (x ∈ claimants σ tag0) as Hin by (rewrite Hc; by left).
    apply list_elem_of_filter in Hin as [Hin _].
    apply Is_true_true, holds_true in Hin as (b0 & Hb0 & Hr0).
    assert (b0 = b) as -> by congruence.
    apply is_running_true in Hr0 as (l1 & z & l2 & Hr & Hz & _).
    rewrite Hrun in Hr. destruct l1 as [|? [|??]]; simplify_eq/=. done. }
  assert (notify "command" tag0 σ
          = (Ok tt, set_log ((log σ ++ [LogWarn ("Processing request '" +:+ tag0 +:+ "'");
                                        LogWarn "Requests"; LogWarn "RUNNING Requests";
                                        LogWarn "WAITING Requests";
                                        LogWarn "FINISHED Requests"])
                                ++ [LogError SendError])
               (next x (set_heap (<[x := resolved b 0 y]> (heap σ)) σ)).2)) as Heq.
  { unfold notify, try_except.
    rewrite (_notify_route σ tag0 x b [] y []) by (try done; by intros ? ?%elem_of_nil).
    cbv zeta. change (length (@nil CommandResult)) with 0.
    assert (is_ready (resolved b 0 y) = true) as ->.
    { unfold resolved, is_ready. destruct (decide (r y = 0%Z)); simpl;
        by rewrite Hrun, Hw. }
    rewrite next_set_log.
    set (σ1 := set_heap (<[x:=resolved b 0 y]> (heap σ)) σ).
    destruct (next_fail σ1 x (resolved b 0 y) commands rest) as (Hres & _ & _ & Hl).
    { simpl. apply lookup_insert_eq. }
    { unfold resolved. by destruct (decide (r y = 0%Z)). }
    { done. }
    destruct (next x σ1) as [[[]|e] σ2]; simpl in *; [done|].
    by simplify_eq. }
  assert (heap σ' !! x = Some b') as Hb'.
  { subst σ'. unfold exec. rewrite Heq. simpl.
    set (σ1 := set_heap (<[x:=resolved b 0 y]> (heap σ)) σ).
    destruct (next_fail σ1 x (resolved b 0 y) commands rest) as (_ & Hh & _).
    { simpl. apply lookup_insert_eq. }
    { unfold resolved. by destruct (decide (r y = 0%Z)). }
    { done. }
    rewrite Hh. simpl. rewrite lookup_insert_eq. f_equal.
    subst b'. unfold resolved, set_waiting.
    destruct (decide (r y = 0%Z)); simpl; by rewrite Hrun. }
  split_and!.
  - by rewrite Heq.
  - subst σ'. unfold exec. rewrite Heq. simpl.
    apply last_snoc.
  - done.
  - apply do_events_frozen; [done| |done].
    destruct (notify_effect σ "command" tag0) as (_ & Hn & _).
    subst σ'. by rewrite Hn.
Qed.

(** ** Listing and inspecting *)

Lemma Request_get_loop_mono σ : ∀ rs acc m σ',
  Request_get_loop rs acc σ = (Ok m, σ') →
  ∀ u, is_Some (acc !! u) → is_Some (m !! u).
Proof.
  induction rs as [|z rs IH]; intros acc m σ' Hl u Hu; simpl in Hl.
  - unfold mret, M_ret in Hl. by simplify_eq.
  - unfold mbind, M_bind, get_obj in Hl.
    destruct (heap σ !! z) as [c|]; [|done].
    eapply IH; [exact Hl|].
    destruct (decide (uuid c = u)) as [->|?].
    + by rewrite lookup_insert_eq.
    + by rewrite lookup_insert_ne.
Qed.

Lemma Request_get_loop_spec σ : ∀ rs acc,
  (∀ x, x ∈ rs → ∃ b, heap σ !! x = Some b ∧ uuid b = pretty x) →
  NoDup rs →
  ∃ m, Request_get_loop rs acc σ = (Ok m, σ)
       ∧ (∀ x b, x ∈ rs → heap σ !! x = Some b → m !! uuid b = Some (get_state b))
       ∧ (∀ u s, m !! u = Some s →
                 acc !! u = Some s
                 ∨ ∃ x b, x ∈ rs ∧ heap σ !! x = Some b ∧ uuid b = u ∧ get_state b = s).
Proof.
  induction rs as [|x rs IH]; intros acc Hrs Hnd.
  - exists acc. split; [done|]. split.
    + intros x b Hx. by apply elem_of_nil in Hx.
    + intros u s Hu. by left.
  - apply NoDup_cons in Hnd as [Hx Hnd].
    destruct (Hrs x) as (bx & Hbx & Hux); [by left|].
    destruct (IH (<[uuid bx := get_state bx]> acc)) as (m & Heq & Hin & Hout);
      [intros y Hy; apply Hrs; by right|done|].
    exists m. split_and!.
    + simpl. by erewrite bind_ok by (by apply get_obj_eq).
    + intros y b [->|Hy]%elem_of_cons Hb; [|by apply (Hin y)].
      assert (b = bx) as -> by congruence.
      destruct (m !! uuid bx) as [s|] eqn:Hm.
      * destruct (Hout _ _ Hm) as [Hacc|(z & c & Hz & Hc & Hcu & Hcs)].
        -- by rewrite lookup_insert_eq in Hacc.
        -- destruct (Hrs z) as (c' & Hc' & Hcu'); [by right|].
           assert (c' = c) as -> by congruence.
           rewrite Hux, Hcu' in Hcu. apply (inj pretty) in Hcu. by subst.
      * (* the entry written for [x] is still there *)
        destruct (Request_get_loop_mono σ rs _ m σ Heq (uuid bx)) as [s Hs];
          [by rewrite lookup_insert_eq|congruence].
    + intros u s Hm. destruct (Hout _ _ Hm) as [Hacc|(z & c & Hz & Hc & Hcu & Hcs)].
      * destruct (decide (uuid bx = u)) as [<-|Hne].
        -- rewrite lookup_insert_eq in Hacc. simplify_eq.
           right. exists x, bx. split_and!; try done. by left.
        -- rewrite lookup_insert_ne in Hacc by done. by left.
      * right. exists z, c. split_and!; try done. by right.
Qed.

Lemma registry_ok_uuids σ :
  registry_ok σ → ∀ x, x ∈ requests σ → ∃ b, heap σ !! x = Some b ∧ uuid b = pretty x.
Proof.
  intros [_ Hreg] x Hx. destruct (Hreg x Hx) as (_ & b & Hb & Hu & _). eauto.
Qed.

Lemma Request_get_ok σ :
  registry_ok σ →
  ∃ states, Request_get σ = (Ok (inl states), σ)
    ∧ ∀ u s, states !! u = Some s
             ↔ ∃ x b, x ∈ requests σ ∧ heap σ !! x = Some b
                      ∧ uuid b = u ∧ get_state b = s.
Proof.
  intros Hreg.
  destruct (Request_get_loop_spec σ (requests σ) ∅) as (m & Heq & Hin & Hout).
  { by apply registry_ok_uuids. }
  { by destruct Hreg. }
  exists m. split.
  - unfold Request_get, catch, try_except, fmap, M_fmap. mstep. by rewrite Heq.
  - intros u s. split.
    + intros Hm. by destruct (Hout _ _ Hm) as [Hacc|?].
    + intros (x & b & Hx & Hb & <- & <-). by apply (Hin x).
Qed.

(** X10: in a sound registry [Request.get] returns, changing nothing, the
    dictionary that maps the [uuid] of every registered batch, and nothing
    else, to the state of that batch. *)
Theorem Request_get_lists_states σ :
  registry_ok σ →
  ∃ states, Request_get σ = (Ok (inl states), σ)
    ∧ ∀ u s, states !! u = Some s
             ↔ ∃ x b, x ∈ requests σ ∧ heap σ !! x = Some b
                      ∧ uuid b = u ∧ get_state b = s.
Proof. apply Request_get_ok. Qed.

(** X11: after a sweep, every state that [Request.get] lists is
    ["pending"], and every registered batch is listed. *)
Theorem sweep_leaves_pending σ :
  registry_ok σ →
  let σ1 := exec Request_delete σ in
  ∃ states, Request_get σ1 = (Ok (inl states), σ1)
    ∧ (∀ u s, states !! u = Some s → s = "pending")
    ∧ (∀ x b, x ∈ requests σ1 → heap σ1 !! x = Some b → states !! uuid b = Some "pending").
Proof.
  intros Hreg σ1.
  assert (registry_ok σ1) as Hreg1 by apply (do_event_registry_ok Sweep σ Hreg).
  assert (∀ x b, x ∈ requests σ1 → heap σ1 !! x = Some b → get_state b = "pending")
    as Hpending.
  { subst σ1. unfold exec. rewrite Request_delete_eq. simpl.
    intros x b [Hnf _]%list_elem_of_filter Hb.
    unfold holds in Hnf. rewrite Hb in Hnf. simpl in Hnf.
    unfold get_state. by destruct (is_finished b). }
  destruct (Request_get_ok σ1 Hreg1) as (states & Heq & Hst).
  exists states. split_and!; [done| |].
  - intros u s (x & b & Hx & Hb & _ & <-)%Hst. by eapply Hpending.
  - intros x b Hx Hb. apply Hst. exists x, b. split_and!; try done. by eapply Hpending.
Qed.

Lemma with_uuid_single σ x b :
  registry_ok σ → x ∈ requests σ → heap σ !! x = Some b →
  with_uuid σ (uuid b) = [x].
Proof.
  intros Hreg Hx Hb.
  assert (x ∈ with_uuid σ (uuid b)) as Hin.
  { apply list_elem_of_filter. split; [|done]. unfold holds. rewrite Hb. simpl.
    by rewrite bool_decide_eq_true_2. }
  assert (length (with_uuid σ (uuid b)) ≤ 1) as Hlen.
  { apply NoDup_all_equal.
    - apply NoDup_filter. by destruct Hreg.
    - assert (∀ y, y ∈ with_uuid σ (uuid b) → pretty y = uuid b) as Hall.
      { intros y [Hy Hyin]%list_elem_of_filter.
        destruct (registry_ok_uuids σ Hreg y Hyin) as (c & Hc & Hcu).
        unfold holds in Hy. rewrite Hc in Hy. simpl in Hy.
        apply bool_decide_unpack in Hy. congruence. }
      intros y z Hy%Hall Hz%Hall. apply (inj pretty). congruence. }
  destruct (with_uuid σ (uuid b)) as [|y [|z l]]; simpl in Hlen; try lia.
  - by apply elem_of_nil in Hin.
  - by apply list_elem_of_singleton in Hin as ->.
Qed.

(** X12: whenever [RequestUuid.get] answers with a snapshot, the snapshot
    is that of a registered batch with the asked [uuid] that has no stage
    waiting: its [waiting] list is empty and its [is_waiting] flag is
    false.  The other fields are the payloads of [running], [finished] and
    [failed] and the flags of the batch. *)
Theorem RequestUuid_get_snapshot σ uuid0 s :
  RequestUuid_get σ uuid0 = GetSnapshot s →
  snap_waiting s = [] ∧ snap_is_waiting s = false
  ∧ ∃ x b, x ∈ requests σ ∧ heap σ !! x = Some b ∧ uuid b = uuid0
           ∧ waiting b = []
           ∧ snap_uuid s = uuid0
           ∧ snap_running s = map command (running b)
           ∧ snap_finished s = map command (finished b)
           ∧ snap_failed s = map command (failed b)
           ∧ snap_is_finished s = is_finished b
           ∧ snap_has_failed s = has_failed b.
Proof.
  unfold RequestUuid_get. fold (with_uuid σ uuid0).
  case_decide as Hlen; [done|].
  destruct (with_uuid σ uuid0) as [|x l] eqn:Hf; [done|].
  assert (x ∈ with_uuid σ uuid0) as Hin by (rewrite Hf; by left).
  apply list_elem_of_filter in Hin as [Hu Hin].
  destruct (heap σ !! x) as [b|] eqn:Hb; [|done].
  unfold holds in Hu. rewrite Hb in Hu. simpl in Hu. apply bool_decide_unpack in Hu.
  destruct (waiting b) as [|w ws] eqn:Hw; simpl; [|done].
  intros [= <-]. simpl. split_and!; try done.
  - unfold is_waiting. by rewrite Hw.
  - exists x, b. by split_and!.
Qed.

(** X13: in a sound registry, asking [RequestUuid.get] for a registered
    batch that still has a stage waiting ends in an [AttributeError]: the
    method reads [command] off each element of [waiting], and these are
    lists.  For a registered batch with nothing waiting it answers with
    the snapshot of that batch, and for a [uuid] that no registered batch
    carries it answers that the request is unknown. *)
Theorem RequestUuid_get_spec σ :
  registry_ok σ →
  (∀ x b, x ∈ requests σ → heap σ !! x = Some b →
     RequestUuid_get σ (uuid b)
     = match waiting b with
       | _ :: _ => GetRaised "command"
       | [] => GetSnapshot
                 {| snap_uuid := uuid b;
                    snap_running := map command (running b);
                    snap_finished := map command (finished b);
                    snap_waiting := [];
                    snap_failed := map command (failed b);
                    snap_is_waiting := false;
                    snap_is_finished := is_finished b;
                    snap_has_failed := has_failed b |}
       end)
  ∧ (∀ uuid0, (∀ x b, x ∈ requests σ → heap σ !! x = Some b → uuid b ≠ uuid0) →
              RequestUuid_get σ uuid0 = GetUnknown uuid0).
Proof.
  intros Hreg. split.
  - intros x b Hx Hb. unfold RequestUuid_get. fold (with_uuid σ (uuid b)).
    rewrite (with_uuid_single σ x b) by done.
    rewrite decide_False by (simpl; lia). rewrite Hb.
    destruct (waiting b) as [|w ws] eqn:Hw; simpl; [|done].
    unfold is_waiting. by rewrite Hw.
  - intros uuid0 Hnone. unfold RequestUuid_get. fold (with_uuid σ uuid0).
    assert (with_uuid σ uuid0 = []) as ->; [|done].
    apply elem_of_nil_inv. intros x [Hu Hx]%list_elem_of_filter.
    destruct (registry_ok_uuids σ Hreg x Hx) as (b & Hb & _).
    unfold holds in Hu. rewrite Hb in Hu. simpl in Hu. apply bool_decide_unpack in Hu.
    by apply (Hnone x b).
Qed.

(** ** Cancelling *)

(** X14: [RequestUuid.delete] on a registry whose references are all to
    objects of the store.  If no registered batch carries the [uuid], it
    returns [False] and changes nothing.  Otherwise it returns [True] and
    takes out of the registry the first batch that carries it, and that one
    only; the other registered batches keep their order, and no batch
    object is touched (what the batch had dispatched is not recalled). *)
Theorem RequestUuid_delete_spec σ uuid0 :
  refs_valid σ →
  ((∀ x b, x ∈ requests σ → heap σ !! x = Some b → uuid b ≠ uuid0) →
     RequestUuid_delete uuid0 σ = (Ok (inl false), σ))
  ∧ (∀ l1 x l2 b,
       requests σ = l1 ++ x :: l2 →
       heap σ !! x = Some b → uuid b = uuid0 →
       (∀ y c, y ∈ l1 → heap σ !! y = Some c → uuid c ≠ uuid0) →
       RequestUuid_delete uuid0 σ = (Ok (inl true), set_requests (l1 ++ l2) σ)).
Proof.
  intros Hv. split.
  - intros Hnone. apply RequestUuid_delete_miss. intros x Hx.
    destruct (Hv x Hx) as [b Hb]. exists b. split; [done|]. by apply (Hnone x).
  - intros l1 x l2 b Hreq Hb Hu Hl1. apply (RequestUuid_delete_hit σ uuid0 l1 x l2 b);
      try done.
    intros y Hy. destruct (Hv y) as [c Hc].
    { rewrite Hreq. apply elem_of_app. by left. }
    exists c. split; [done|]. by apply (Hl1 y).
Qed.



(** ** A submission that goes through *)

Lemma submit_request_ok_eq σ first rest :
  sends_ok (length first) (faults σ) = true →
  submit_request (first :: rest) σ
  = (Ok (pretty (next_id σ)),
     set_requests (requests σ ++ [next_id σ])
       (set_heap (<[next_id σ := {| uuid := pretty (next_id σ);
                                    running := stage_results (pretty (next_id σ)) 0 first;
                                    waiting := rest; finished := []; failed := [] |}]>
                    (heap σ))
          (set_sent (sent σ ++ map (λ x, (tag x, command x))
                                   (stage_results (pretty (next_id σ)) 0 first))
             (set_faults (drop (length first) (faults σ))
                (set_next_id (N.succ (next_id σ)) σ))))).
Proof.
  intros Hok.
  assert (CommandsRequest_new (first :: rest) σ
          = (Ok (next_id σ),
             (CommandsRequest_init (next_id σ) (first :: rest)
                (set_next_id (N.succ (next_id σ)) σ)).2)) as Hnew.
  { unfold CommandsRequest_new. mstep. mstep.
    erewrite bind_ok by (apply CommandsRequest_init_ok; exact Hok).
    by rewrite CommandsRequest_init_ok by exact Hok. }
  unfold submit_request. erewrite bind_ok by exact Hnew.
  rewrite CommandsRequest_init_ok by done. mstep.
  by erewrite bind_ok by (apply get_obj_eq; simpl; apply lookup_insert_eq).
Qed.

(** X16: when the sends of the first stage go through, [submit_request]
    returns the new batch's [uuid], which is its identity in decimal;
    registers the batch behind the batches registered before; has handed
    every command of the first stage to the control plane once, in order,
    tagged [<uuid>:<position>]; and leaves the batch with the invocations
    of the first stage running and the other stages waiting, in order.  No
    other object of the store is touched. *)
Theorem submit_request_spec σ request :
  let self := next_id σ in
  let first := default [] (head request) in
  sends_ok (length first) (faults σ) = true →
  let res := submit_request request σ in
  res.1 = Ok (pretty self)
  ∧ requests res.2 = requests σ ++ [self]
  ∧ heap res.2
    = <[self := {| uuid := pretty self;
                   running := stage_results (pretty self) 0 first;
                   waiting := drop 1 request; finished := []; failed := [] |}]> (heap σ)
  ∧ sent res.2
    = sent σ ++ zip ((λ i : nat, pretty self +:+ ":" +:+ pretty i)
                       <$> seq 0 (length first)) first
  ∧ next_id res.2 = N.succ self
  ∧ log res.2 = log σ.
Proof.
  intros self first Hok res. subst self first res.
  destruct request as [|first rest]; simpl in *.
  - unfold submit_request. erewrite bind_ok by apply CommandsRequest_new_empty.
    mstep. erewrite bind_ok by (apply get_obj_eq; simpl; apply lookup_insert_eq).
    simpl. split_and!; try done. by rewrite app_nil_r.
  - rewrite submit_request_ok_eq by done. simpl. split_and!; try done.
    by rewrite map_pair_zip, stage_results_commands, stage_results_tags.
Qed.

Lemma submit_request_fail_eq σ first rest :
  sends_ok (length first) (faults σ) = false →
  ∃ σ2, submit_request (first :: rest) σ = (Raise (UnboundLocalError "results"), σ2)
        ∧ log σ2 = log σ ++ [LogError SendError]
        ∧ requests σ2 = requests σ
        ∧ next_id σ2 = N.succ (next_id σ).
Proof.
  intros Hok.
  destruct (CommandsRequest_init_fail (set_next_id (N.succ (next_id σ)) σ)
              (next_id σ) first rest Hok) as (σ2 & Heq & Hl & Hn & Hq & Hh).
  exists σ2. split_and!; try done.
  assert (CommandsRequest_new (first :: rest) σ
          = (Raise (UnboundLocalError "results"), σ2)) as Hnew.
  { unfold CommandsRequest_new. mstep. mstep. unfold mbind, M_bind. by rewrite Heq. }
  unfold submit_request, mbind, M_bind. by rewrite Hnew.
Qed.

End Neverest.

(** * Concrete runs

    The statements above, at the module with string payloads whose
    [CommandResult] constructor leaves [r] at 0. *)

(** C1, the claim as stated fails: in the batch submitted as
    [[["A"]; ["B"]]], the invocation of ["A"] (first stage) and the one of
    ["B"] (second stage, dispatched once ["A"] is resolved) carry the same
    tag ["0:0"]. *)
Lemma tag_reused_across_stages :
  let σ1 := @submitted string 0 [] [["A"]; ["B"]] in
  let σ2 := do_calls 0 0 [Finish "0:0"; Next] σ1 in
  ∃ x y,
    running <$> heap σ1 !! 0%N = Some [x]
    ∧ running <$> heap σ2 !! 0%N = Some [y]
    ∧ command x = "A" ∧ command y = "B"
    ∧ tag x = "0:0" ∧ tag x = tag y.
Proof.
  exists {| tag := "0:0"; command := "A"; r := 0 |},
         {| tag := "0:0"; command := "B"; r := 0 |}.
  by vm_compute.
Qed.

Lemma tag_identifies_batch_and_position_witness :
  let x := {| tag := "0:0"; command := "A"; r := 0 |} in
  let y := {| tag := "0:0"; command := "B"; r := 0 |} in
  (run 0 ["A"] (pretty 0%N) (Module_init [])).1 = Ok [x]
  ∧ (run 0 ["B"] (pretty 0%N) (Module_init [])).1 = Ok [y]
  ∧ tag x = pretty 0%N +:+ ":" +:+ pretty 0
  ∧ (tag x = tag y ↔ 0%N = 0%N ∧ 0 = 0).
Proof.
  intros x y. split; [reflexivity|]. split; [reflexivity|].
  apply (tag_identifies_batch_and_position 0 0%N 0%N ["A"] ["B"]
           (Module_init []) (Module_init []) [x] [y] 0 0 x y); reflexivity.
Defined.

(** C2 at a failing input: the first send raises. *)
Lemma CommandsRequest_init_dispatch_throws_witness :
  let σ := @Module_init string [true] in
  sends_ok 1 (faults σ) = false
  ∧ (CommandsRequest_new 0 [["A"]; ["B"]] σ).1 = Raise (UnboundLocalError "results")
  ∧ (submit_request 0 [["A"]; ["B"]] σ).1 = Raise (UnboundLocalError "results")
  ∧ log (submit_request 0 [["A"]; ["B"]] σ).2 = [LogError SendError]
  ∧ requests (submit_request 0 [["A"]; ["B"]] σ).2 = []
  ∧ heap (submit_request 0 [["A"]; ["B"]] σ).2 !! 0%N
    = Some {| uuid := "0"; running := []; waiting := [["B"]];
              finished := []; failed := [] |}.
Proof.
  intros σ. split; [reflexivity|].
  exact (CommandsRequest_init_dispatch_throws 0 σ ["A"] [["B"]] eq_refl).
Defined.

(** C3, the claim as stated fails: right after [[["A"]; ["B"]]] is
    submitted, [running] and [waiting] are both non-empty, so the batch is
    not ready; [next] dispatches the second stage all the same. *)
Lemma next_dispatches_while_running :
  let σ := @submitted string 0 [] [["A"]; ["B"]] in
  ∃ b b',
    heap σ !! 0%N = Some b
    ∧ is_ready b = false
    ∧ running b = [{| tag := "0:0"; command := "A"; r := 0 |}]
    ∧ waiting b = [["B"]]
    ∧ heap (exec (next 0 0) σ) !! 0%N = Some b'
    ∧ running b' = [{| tag := "0:0"; command := "A"; r := 0 |};
                    {| tag := "0:0"; command := "B"; r := 0 |}]
    ∧ waiting b' = []
    ∧ b' ≠ b.
Proof.
  do 2 eexists. split_and!; try (vm_compute; reflexivity). by vm_compute.
Qed.

Lemma next_spec_witness :
  let σ := @submitted string 0 [] [["A"]; ["B"]] in
  let b := {| uuid := "0"; running := [{| tag := "0:0"; command := "A"; r := 0 |}];
              waiting := [["B"]]; finished := []; failed := [] |} in
  heap σ !! 0%N = Some b
  ∧ (next 0 0 σ).1 = Ok tt
  ∧ heap (next 0 0 σ).2
    = <[0%N := {| uuid := "0";
                  running := running b ++ stage_results 0 "0" 0 ["B"];
                  waiting := []; finished := []; failed := [] |}]> (heap σ)
  ∧ requests (next 0 0 σ).2 = requests σ.
Proof.
  intros σ b. split; [reflexivity|].
  exact (proj2 (next_spec 0 σ 0 b eq_refl) ["B"] [] eq_refl eq_refl).
Defined.

(** C4, the claim as stated fails: when the second send raises, the
    dispatch of the second stage is given up after the stage has left
    [waiting], and ["B"] is tracked nowhere. *)
Lemma command_lost_when_send_raises :
  let σ := (CommandsRequest_new 0 [["A"]; ["B"]] (@Module_init string [false; true])).2 in
  let σ' := do_calls 0 0 [Finish "0:0"; Next] σ in
  ∃ b, heap σ' !! 0%N = Some b
       ∧ running b = [] ∧ waiting b = [] ∧ failed b = []
       ∧ finished b = [{| tag := "0:0"; command := "A"; r := 0 |}]
       ∧ tracked b = ["A"]
       ∧ "B" ∉ tracked b.
Proof.
  eexists. split_and!; try (vm_compute; reflexivity).
  vm_compute. by intros [?|?%elem_of_nil]%elem_of_cons.
Qed.

Lemma tracked_partition_witness :
  let σ := @Module_init string [] in
  fault_free σ = true
  ∧ (CommandsRequest_new 0 [["A"]; ["B"]] σ).1 = Ok 0%N
  ∧ ∃ b, heap (do_calls 0 0 [Finish "0:0"; Next; Complete 0 5; Finish "0:0"]
                 (CommandsRequest_new 0 [["A"]; ["B"]] σ).2) !! 0%N = Some b
         ∧ tracked b ≡ₚ ["A"; "B"].
Proof.
  intros σ. split; [reflexivity|].
  exact (tracked_partition 0 σ [["A"]; ["B"]]
           [Finish "0:0"; Next; Complete 0 5; Finish "0:0"] eq_refl).
Defined.

Lemma failure_does_not_halt_witness :
  let A := {| tag := "0:0"; command := "A"; r := 0 |} in
  let B := {| tag := "0:0"; command := "B"; r := 0 |} in
  let σ1 := exec (submit_request 0 [["A"]; ["B"]]) (Module_init []) in
  let σ2 := exec (OnCompletion 0 0 0 (-22)) σ1 in
  let σ3 := exec (OnCompletion 0 0 0 0) σ2 in
  (-22 ≠ 0)%Z
  ∧ requests σ1 = [0%N] ∧ requests σ3 = [0%N]
  ∧ heap σ1 !! 0%N
    = Some {| uuid := "0"; running := [A]; waiting := [["B"]];
              finished := []; failed := [] |}
  ∧ heap σ2 !! 0%N
    = Some {| uuid := "0"; running := [B]; waiting := [];
              finished := []; failed := [set_r (-22) A] |}
  ∧ heap σ3 !! 0%N
    = Some {| uuid := "0"; running := []; waiting := [];
              finished := [set_r 0 B]; failed := [set_r (-22) A] |}
  ∧ get_state <$> heap σ3 !! 0%N = Some "failed".
Proof.
  intros A B σ1 σ2 σ3.
  assert (-22 ≠ 0)%Z as Hrv by discriminate.
  split; [exact Hrv|].
  exact (failure_does_not_halt 0 "A" "B" (-22)%Z Hrv).
Defined.

Lemma is_finished_stable_witness :
  let σ := @submitted string 0 [] [] in
  let b := {| uuid := "0"; running := []; waiting := [];
              finished := []; failed := [] |} in
  let cs := [Next; Finish "0:0"; Complete 0 1; Next] in
  heap σ !! 0%N = Some b
  ∧ is_finished b = true
  ∧ do_calls 0 0 cs σ = σ
  ∧ ∃ b', heap (do_calls 0 0 cs σ) !! 0%N = Some b'
          ∧ is_finished b' = true ∧ running b' = [] ∧ waiting b' = [].
Proof.
  intros σ b cs. split; [reflexivity|]. split; [reflexivity|].
  exact (is_finished_stable 0 σ 0 b cs eq_refl eq_refl).
Defined.

Lemma finish_spec_witness :
  let σ := @submitted string 0 [] [["A"; "B"]] in
  let A := {| tag := "0:0"; command := "A"; r := 0 |} in
  let B := {| tag := "0:1"; command := "B"; r := 0 |} in
  let b := {| uuid := "0"; running := [A; B]; waiting := [];
              finished := []; failed := [] |} in
  heap σ !! 0%N = Some b
  ∧ finish 0 "0:7" σ = (Ok false, σ)
  ∧ heap (exec (finish 0 "0:1") σ) !! 0%N
    = Some {| uuid := "0"; running := [A]; waiting := [];
              finished := [B]; failed := [] |}.
Proof.
  intros σ A B b. split; [reflexivity|]. split.
  - exact (proj1 (finish_spec σ 0 b "0:7" eq_refl) eq_refl).
  - destruct (proj2 (finish_spec σ 0 b "0:1" eq_refl) eq_refl)
      as (l1 & x & l2 & _ & _ & _ & _).
    reflexivity.
Defined.

(** Scenario E: a finished, a pending and a finished batch. *)
Lemma Request_delete_spec_witness :
  let σ := exec (submit_request 0 []) (exec (submit_request 0 [["A"]])
             (@submitted string 0 [] [])) in
  requests σ = [0%N; 1%N; 2%N]
  ∧ holds σ is_finished 0%N = true
  ∧ holds σ is_finished 1%N = false
  ∧ holds σ is_finished 2%N = true
  ∧ Request_delete σ = (Ok (inl 2%Z), set_requests [1%N] σ).
Proof.
  intros σ. do 4 (split; [reflexivity|]).
  exact (proj2 (proj2 (proj2 (Request_delete_spec σ))) 0%N 1%N 2%N
           eq_refl eq_refl eq_refl eq_refl).
Defined.

(** Two registered batches that both run an invocation tagged ["7:0"]: the
    completion is dropped. *)
Lemma notify_spec_witness :
  let x := {| tag := "7:0"; command := "A"; r := 0 |} in
  let b := {| uuid := "7"; running := [x]; waiting := [["B"]];
              finished := []; failed := [] |} in
  let σ := {| log := []; sent := []; faults := []; next_id := 2;
              heap := <[0%N := b]> (<[1%N := b]> ∅); requests := [0%N; 1%N] |} in
  let σ' := exec (notify 0 "command" "7:0") σ in
  claimants σ "7:0" = [0%N; 1%N]
  ∧ heap σ' = heap σ ∧ requests σ' = requests σ
  ∧ sent σ' = sent σ ∧ faults σ' = faults σ.
Proof.
  intros x b σ σ'. split; [reflexivity|].
  apply (proj1 (notify_spec 0 σ "7:0")). vm_compute. discriminate.
Defined.

(** * The endpoints that submit commands

    The handlers of [api.py] that build commands and hand them to
    [Module.submit_request], with the commands as the dictionaries the code
    writes.  What [MgrModule.get('osd_map')] returns and the parsed body of
    the HTTP request are arguments of the handlers. *)

(** A JSON value as [json.loads] yields it (numbers with a fraction are
    left out). *)
#[local] Unset Elimination Schemes.
Inductive pyval : Type :=
  | VNone
  | VBool (b : bool)
  | VInt (z : Z)
  | VStr (s : string)
  | VList (l : list pyval)
  | VDict (d : list (string * pyval)).
#[local] Set Elimination Schemes.

(** Python's truth value of a JSON value. *)
Definition py_truthy (v : pyval) : bool :=
  match v with
  | VNone => false
  | VBool b => b
  | VInt z => negb (z =? 0)%Z
  | VStr s => negb (bool_decide (s = ""))
  | VList l => truthy l
  | VDict d => truthy d
  end.

(** The double quote, for the messages that contain one. *)
Definition dq : string := String "034"%char EmptyString.

(** common.py *)
Definition OSD_IMPLEMENTED_COMMANDS : list string := ["scrub"; "deep_scrub"; "repair"].

Definition POOL_PROPERTIES : list string :=
  ["size"; "min_size"; "crash_replay_interval"; "pg_num";
   "pgp_num"; "crush_ruleset"; "hashpspool"].

Definition POOL_QUOTA_PROPERTIES : list (string * string) :=
  [("quota_max_bytes", "max_bytes"); ("quota_max_objects", "max_objects")].

(** An entry of [osd_map['osds']], with the two keys the handlers read. *)
Record Osd : Type := mkOsd {
  osd : Z;
  up : Z;
}.

(** What a handler answers with: an [{'error': ...}] dictionary or the
    value it returns. *)
Inductive answer (A : Type) : Type :=
  | Error (msg : string)
  | Value (a : A).
Arguments Error {A} msg.
Arguments Value {A} a.

Section Endpoints.

Variable r_init : Z.

(** [Module.get_osd_by_id], on the list [osds] that
    [self.get('osd_map')['osds']] returns. *)
Definition get_osd_by_id (osds : list Osd) (osd_id : Z) : option Osd :=
  let osd0 := filter (λ x, osd x = osd_id) osds in
  if decide (length osd0 ≠ 1) then None else head osd0.

(** [OsdIdCommand.get] *)
Definition OsdIdCommand_get (osds : list Osd) (osd_id : Z) : answer (list string) :=
  match get_osd_by_id osds osd_id with
  | None => Error "Failed to identify the OSD"
  | Some o =>
      if negb (up o =? 0)%Z then Value OSD_IMPLEMENTED_COMMANDS else Value []
  end.

(** [OsdIdCommandId.post] *)
Definition OsdIdCommandId_post (osds : list Osd) (osd_id : Z) (command : string)
  : M (@Mgr (gmap string pyval)) (answer string + exn) :=
  catch (
    match get_osd_by_id osds osd_id with
    | None => mret (Error "Failed to identify the OSD")
    | Some o =>
        if negb (negb (up o =? 0)%Z)
           || negb (bool_decide (command ∈ OSD_IMPLEMENTED_COMMANDS)) then
          mret (Error ("Command " +:+ dq +:+ command +:+ dq +:+ " not available"))
        else
          Value <$> submit_request r_init
                      [[ <["prefix" := VStr ("osd " +:+ command)]>
                           (<["who" := VStr (pretty osd_id)]> ∅) ]]
    end).

(** [OsdId.patch], on the parsed body [args] of the request. *)
Definition OsdId_patch (osd_id : Z) (args : gmap string pyval)
  : M (@Mgr (gmap string pyval)) (answer string + exn) :=
  catch (
    let commands : list (gmap string pyval) := [] in
    let commands :=
      match args !! "in" with
      | Some v =>
          if py_truthy v then
            commands ++ [ <["prefix" := VStr "osd in"]>
                            (<["ids" := VList [VStr (pretty osd_id)]]> ∅) ]
          else
            commands ++ [ <["prefix" := VStr "osd out"]>
                            (<["ids" := VList [VStr (pretty osd_id)]]> ∅) ]
      | None => commands
      end in
    let reweight_and_submit (commands : list (gmap string pyval)) :=
      let commands :=
        match args !! "reweight" with
        | Some w =>
            commands ++ [ <["prefix" := VStr "osd reweight"]>
                            (<["id" := VInt osd_id]> (<["weight" := w]> ∅)) ]
        | None => commands
        end in
      Value <$> submit_request r_init [commands] in
    match args !! "up" with
    | Some v =>
        if py_truthy v then
          mret (Error "It is not valid to set a down OSD to be up")
        else
          reweight_and_submit
            (commands ++ [ <["prefix" := VStr "osd down"]>
                             (<["ids" := VList [VStr (pretty osd_id)]]> ∅) ])
    | None => reweight_and_submit commands
    end).

(** Python's [str] of a JSON value and of a dictionary of them: builtins,
    taken as they are. *)
Variable py_str : pyval → string.
Variable py_str_dict : gmap string pyval → string.

(** [args[k]] for a key that the code has checked to be there. *)
Definition getitem (args : gmap string pyval) (k : string) : pyval :=
  default VNone (args !! k).

(** [for arg in [...]: if arg not in args: return ...]: the first argument
    that is missing. *)
Fixpoint first_missing (required : list string) (args : gmap string pyval)
  : option string :=
  match required with
  | [] => None
  | arg :: required' =>
      match args !! arg with
      | None => Some arg
      | Some _ => first_missing required' args
      end
  end.

(** One round of the loop over [POOL_PROPERTIES]; the state is [args] and
    [set_commands]. *)
Definition pool_set_step (st : gmap string pyval * list (gmap string pyval))
    (var : string) : gmap string pyval * list (gmap string pyval) :=
  let '(args, set_commands) := st in
  match args !! var with
  | Some v =>
      (delete var args,
       set_commands ++ [ <["prefix" := VStr "osd pool set"]>
                           (<["pool" := getitem args "name"]>
                              (<["var" := VStr var]> (<["val" := v]> ∅))) ])
  | None => st
  end.

(** One round of the loop over [POOL_QUOTA_PROPERTIES]. *)
Definition pool_quota_step (st : gmap string pyval * list (gmap string pyval))
    (vf : string * string) : gmap string pyval * list (gmap string pyval) :=
  let '(args, set_commands) := st in
  let '(var, field) := vf in
  match args !! var with
  | Some v =>
      (delete var args,
       set_commands ++ [ <["prefix" := VStr "osd pool set-quota"]>
                           (<["pool" := getitem args "name"]>
                              (<["field" := VStr field]>
                                 (<["val" := VStr (py_str v)]> ∅))) ])
  | None => st
  end.

(** [Pool.post], on the parsed body [args] of the request. *)
Definition Pool_post (args : gmap string pyval)
  : M (@Mgr (gmap string pyval)) (answer string + exn) :=
  catch (
    match first_missing ["name"; "pg_num"] args with
    | Some arg =>
        mret (Error ("Argument " +:+ dq +:+ arg +:+ dq +:+ " is missing"))
    | None =>
        let create_command : gmap string pyval :=
          <["prefix" := VStr "osd pool create"]>
            (<["pool" := getitem args "name"]>
               (<["pg_num" := getitem args "pg_num"]> ∅)) in
        let args := delete "pg_num" args in
        let '(args, set_commands) := foldl pool_set_step (args, []) POOL_PROPERTIES in
        let '(args, set_commands) :=
          foldl pool_quota_step (args, set_commands) POOL_QUOTA_PROPERTIES in
        let args := delete "name" args in
        if decide (size args ≠ 0) then
          mret (Error ("Invalid arguments found: " +:+ dq +:+ py_str_dict args +:+ dq))
        else
          Value <$> submit_request r_init ([[create_command]] ++ [set_commands])
    end).

(** The commands that [Pool.post] builds for the settings of a pool, as
    a table of the request: an [osd pool set] for each property of
    [POOL_PROPERTIES] other than [pg_num] that the request names, in the
    order of that list, then an [osd pool set-quota] for each quota. *)
Definition pool_set_command (name : pyval) (var : string) (v : pyval)
  : gmap string pyval :=
  <["prefix" := VStr "osd pool set"]>
    (<["pool" := name]> (<["var" := VStr var]> (<["val" := v]> ∅))).

Definition pool_quota_command (name : pyval) (field : string) (v : pyval)
  : gmap string pyval :=
  <["prefix" := VStr "osd pool set-quota"]>
    (<["pool" := name]> (<["field" := VStr field]> (<["val" := VStr (py_str v)]> ∅))).

Definition pool_settings (args : gmap string pyval) : list (gmap string pyval) :=
  omap (λ var, if decide (var = "pg_num") then None
               else pool_set_command (getitem args "name") var <$> args !! var)
       POOL_PROPERTIES
  ++ omap (λ vf : string * string,
             pool_quota_command (getitem args "name") vf.2 <$> args !! vf.1)
          POOL_QUOTA_PROPERTIES.

(** The arguments that [Pool.post] knows. *)
Definition pool_known : list string :=
  ["name"; "pg_num"] ++ POOL_PROPERTIES ++ (fst <$> POOL_QUOTA_PROPERTIES).

(** ** Identifying an OSD *)

Lemma filter_single_split {A} (P : A → Prop) `{∀ x, Decision (P x)} (l : list A) o :
  filter P l = [o] ↔ ∃ l1 l2, l = l1 ++ o :: l2 ∧ P o ∧ ∀ o', o' ∈ l1 ++ l2 → ¬ P o'.
Proof.
  split.
  - intros Hf.
    assert (o ∈ filter P l) as Hin by (rewrite Hf; by left).
    apply list_elem_of_filter in Hin as [Ho Hin].
    apply list_elem_of_split in Hin as (l1 & l2 & ->).
    exists l1, l2. split_and!; [done..|].
    rewrite filter_app, filter_cons_True in Hf by done.
    intros o' Ho' HP.
    assert (filter P l1 = [] ∧ filter P l2 = []) as [H1 H2].
    { destruct (filter P l1) as [|a [|??]], (filter P l2) as [|b ?]; simplify_eq/=; done. }
    apply elem_of_app in Ho' as [Ho'|Ho'].
    + assert (o' ∈ filter P l1) as Hc by (by apply list_elem_of_filter).
      rewrite H1 in Hc. by apply elem_of_nil in Hc.
    + assert (o' ∈ filter P l2) as Hc by (by apply list_elem_of_filter).
      rewrite H2 in Hc. by apply elem_of_nil in Hc.
  - intros (l1 & l2 & -> & Ho & Hnone).
    rewrite filter_app, filter_cons_True by done.
    assert (filter P l1 = []) as ->.
    { apply elem_of_nil_inv. intros o' [HP Hin]%list_elem_of_filter.
      apply (Hnone o'); [|done]. apply elem_of_app. by left. }
    assert (filter P l2 = []) as ->; [|done].
    apply elem_of_nil_inv. intros o' [HP Hin]%list_elem_of_filter.
    apply (Hnone o'); [|done]. apply elem_of_app. by right.
Qed.

Lemma get_osd_by_id_Some osds osd_id o :
  get_osd_by_id osds osd_id = Some o ↔ filter (λ x, osd x = osd_id) osds = [o].
Proof.
  unfold get_osd_by_id.
  destruct (filter (λ x, osd x = osd_id) osds) as [|a [|b l]];
    case_decide as Hlen; simpl in *; try lia; try done.
  split; congruence.
Qed.

(** X17: [get_osd_by_id] returns an entry exactly when the OSD map holds
    one entry with the asked id and no second one, and then it is that
    entry; an id that occurs twice is as unknown as one that does not
    occur. *)
Theorem get_osd_by_id_spec osds osd_id o :
  get_osd_by_id osds osd_id = Some o
  ↔ ∃ l1 l2, osds = l1 ++ o :: l2 ∧ osd o = osd_id
             ∧ ∀ o', o' ∈ l1 ++ l2 → osd o' ≠ osd_id.
Proof.
  rewrite get_osd_by_id_Some.
  apply (filter_single_split (λ x, osd x = osd_id)).
Qed.

(** ** Running a command on an OSD *)

(** X18: [OsdIdCommandId.post] accepts exactly the commands that
    [OsdIdCommand.get] lists for the OSD: those of
    [OSD_IMPLEMENTED_COMMANDS] when the OSD is identified and up, none
    otherwise.  A command that is not accepted is answered with an error
    and leaves the module as it was.  An accepted command is submitted as a
    batch of its own with the one command
    [{'prefix': 'osd <command>', 'who': '<osd_id>'}]: if the send goes
    through, the answer is the [uuid] of the batch, which is registered
    with that one invocation running; if the send raises, the answer is
    the error that the constructor runs into, and no batch is registered. *)
Theorem OsdIdCommandId_post_spec osds osd_id command (σ : @Mgr (gmap string pyval)) :
  let cmd : gmap string pyval :=
    <["prefix" := VStr ("osd " +:+ command)]> (<["who" := VStr (pretty osd_id)]> ∅) in
  let accepted :=
    ∃ cmds, OsdIdCommand_get osds osd_id = Value cmds ∧ command ∈ cmds in
  let res := OsdIdCommandId_post osds osd_id command σ in
  (¬ accepted → ∃ msg, res = (Ok (inl (Error msg)), σ))
  ∧ (accepted → sends_ok 1 (faults σ) = true →
       res.1 = Ok (inl (Value (pretty (next_id σ))))
       ∧ requests res.2 = requests σ ++ [next_id σ]
       ∧ heap res.2 !! next_id σ
         = Some {| uuid := pretty (next_id σ);
                   running := [{| tag := pretty (next_id σ) +:+ ":0";
                                  command := cmd; r := r_init |}];
                   waiting := []; finished := []; failed := [] |}
       ∧ sent res.2 = sent σ ++ [(pretty (next_id σ) +:+ ":0", cmd)])
  ∧ (accepted → sends_ok 1 (faults σ) = false →
       res.1 = Ok (inr (UnboundLocalError "results"))
       ∧ requests res.2 = requests σ
       ∧ log res.2 = log σ ++ [LogError SendError; LogError (UnboundLocalError "results")]).
Proof.
  intros cmd accepted res.
  assert (accepted ↔ ∃ o, get_osd_by_id osds osd_id = Some o
                          ∧ up o ≠ 0%Z ∧ command ∈ OSD_IMPLEMENTED_COMMANDS) as Hacc.
  { subst accepted. unfold OsdIdCommand_get.
    destruct (get_osd_by_id osds osd_id) as [o|].
    - destruct (Z.eqb_spec (up o) 0) as [Hup|Hup]; simpl.
      + split.
        * intros (cmds & [= <-] & Hin). by apply elem_of_nil in Hin.
        * intros (o' & [= <-] & Hne & _). done.
      + split.
        * intros (cmds & [= <-] & Hin). eauto.
        * intros (o' & [= <-] & _ & Hin). eauto.
    - split; [by intros (? & ? & ?)|by intros (? & ? & ?)]. }
  subst res. unfold OsdIdCommandId_post, catch, try_except.
  destruct (get_osd_by_id osds osd_id) as [o|] eqn:Hget.
  2:{ split_and!; [eauto| |]; intros Ha; apply Hacc in Ha as (? & ? & ?); done. }
  destruct (Z.eqb_spec (up o) 0) as [Hup|Hup]; simpl.
  { split_and!; [eauto| |]; intros Ha; apply Hacc in Ha as (? & [= <-] & ? & ?); done. }
  destruct (decide (command ∈ OSD_IMPLEMENTED_COMMANDS)) as [Hin|Hin].
  2:{ rewrite bool_decide_eq_false_2 by done. simpl.
      split_and!; [eauto| |]; intros Ha; apply Hacc in Ha as (? & [= <-] & ? & ?); done. }
  rewrite bool_decide_eq_true_2 by done. simpl.
  split_and!.
  - intros Hna. destruct Hna. apply Hacc. eauto.
  - intros _ Hok. unfold fmap, M_fmap.
    rewrite submit_request_ok_eq by done. simpl.
    rewrite lookup_insert_eq. by split_and!.
  - intros _ Hok. unfold fmap, M_fmap.
    match goal with |- context [submit_request r_init [[?c]] σ] =>
      destruct (submit_request_fail_eq r_init σ [c] [] Hok) as (σ2 & -> & Hl & Hq & _)
    end.
    simpl. rewrite Hl, <-app_assoc. by split_and!.
Qed.

(** ** Changing the state of an OSD *)

(** X19: [OsdId.patch] refuses a request that asks to bring the OSD up:
    it answers with an error and carries out nothing of the request, also
    when the request asks to take the OSD in or out or to reweight it.  A
    request that names none of [in], [up] and [reweight] is answered with
    the [uuid] of a batch whose only stage is empty: nothing is sent, and
    the batch is finished at once with state ["success"]. *)
Theorem OsdId_patch_spec osd_id args (σ : @Mgr (gmap string pyval)) :
  (∀ v, args !! "up" = Some v → py_truthy v = true →
     OsdId_patch osd_id args σ
     = (Ok (inl (Error "It is not valid to set a down OSD to be up")), σ))
  ∧ (args !! "in" = None → args !! "up" = None → args !! "reweight" = None →
     let res := OsdId_patch osd_id args σ in
     res.1 = Ok (inl (Value (pretty (next_id σ))))
     ∧ requests res.2 = requests σ ++ [next_id σ]
     ∧ sent res.2 = sent σ
     ∧ ∃ b, heap res.2 !! next_id σ = Some b
            ∧ is_finished b = true ∧ get_state b = "success").
Proof.
  split.
  - intros v Hup Hv. unfold OsdId_patch, catch, try_except. by rewrite Hup, Hv.
  - intros Hin Hup Hrw res. subst res.
    unfold OsdId_patch, catch, try_except, fmap, M_fmap. rewrite Hin, Hup, Hrw.
    rewrite submit_request_ok_eq by done. simpl.
    rewrite app_nil_r, lookup_insert_eq. split_and!; try done. by eexists.
Qed.

(** ** Creating a pool *)

Lemma omap_ext_in {A B} (f g : A → option B) (l : list A) :
  (∀ x, x ∈ l → f x = g x) → omap f l = omap g l.
Proof.
  induction l as [|x l IH]; intros Hfg; csimpl; [done|].
  rewrite (Hfg x) by (by left). rewrite IH; [done|].
  intros y Hy. apply Hfg. by right.
Qed.

Lemma pool_set_fold : ∀ vars args cmds,
  NoDup vars → "name" ∉ vars →
  foldl pool_set_step (args, cmds) vars
  = (foldl (λ a var, delete var a) args vars,
     cmds ++ omap (λ var, pool_set_command (getitem args "name") var <$> args !! var) vars).
Proof.
  induction vars as [|var vars IH]; intros args cmds Hnd Hname; simpl.
  - by rewrite app_nil_r.
  - apply NoDup_cons in Hnd as [Hvar Hnd].
    apply not_elem_of_cons in Hname as [Hne Hname].
    assert (omap (λ var0, pool_set_command (getitem (delete var args) "name") var0
                            <$> delete var args !! var0) vars
            = omap (λ var0, pool_set_command (getitem args "name") var0
                              <$> args !! var0) vars) as Homap.
    { apply omap_ext_in. intros var' Hin.
      assert (var ≠ var') by (by intros ->).
      assert (var ≠ "name") by congruence.
      unfold getitem. by rewrite !lookup_delete_ne by done. }
    destruct (args !! var) as [v|] eqn:Hv; simpl.
    + rewrite IH by done. by rewrite Homap, <-app_assoc.
    + rewrite IH by done. by rewrite (delete_id args var).
Qed.

Lemma pool_quota_fold : ∀ vfs args cmds,
  NoDup (vfs.*1) → "name" ∉ vfs.*1 →
  foldl pool_quota_step (args, cmds) vfs
  = (foldl (λ a var, delete var a) args (vfs.*1),
     cmds ++ omap (λ vf : string * string,
                     pool_quota_command (getitem args "name") vf.2 <$> args !! vf.1) vfs).
Proof.
  induction vfs as [|[var field] vfs IH]; intros args cmds Hnd Hname; simpl.
  - by rewrite app_nil_r.
  - simpl in Hnd, Hname. apply NoDup_cons in Hnd as [Hvar Hnd].
    apply not_elem_of_cons in Hname as [Hne Hname].
    assert (omap (λ vf : string * string,
                    pool_quota_command (getitem (delete var args) "name") vf.2
                      <$> delete var args !! vf.1) vfs
            = omap (λ vf : string * string,
                      pool_quota_command (getitem args "name") vf.2
                        <$> args !! vf.1) vfs) as Homap.
    { apply omap_ext_in. intros [var' field'] Hin. simpl.
      assert (var ≠ var').
      { intros ->. apply Hvar. apply list_elem_of_fmap. by exists (var', field'). }
      assert (var ≠ "name") by congruence.
      unfold getitem. by rewrite !lookup_delete_ne by done. }
    destruct (args !! var) as [v|] eqn:Hv; simpl.
    + rewrite IH by done. by rewrite Homap, <-app_assoc.
    + rewrite IH by done. by rewrite (delete_id args var).
Qed.

Lemma lookup_foldl_delete (vars : list string) : ∀ (args : gmap string pyval) k,
  foldl (λ a var, delete var a) args vars !! k
  = if decide (k ∈ vars) then None else args !! k.
Proof.
  induction vars as [|var vars IH]; intros args k; simpl; [done|].
  rewrite IH. destruct (decide (k = var)) as [->|Hne].
  - rewrite lookup_delete_eq. rewrite (decide_True (P := var ∈ var :: vars)) by (by left).
    by case_decide.
  - rewrite lookup_delete_ne by done.
    destruct (decide (k ∈ vars)) as [Hin|Hin].
    + by rewrite decide_True by (by right).
    + rewrite decide_False; [done|]. by intros [?|?]%elem_of_cons.
Qed.

(** What is left of [args] once [Pool.post] has taken out all it knows. *)
Lemma pool_leftover_lookup (args : gmap string pyval) k :
  delete "name"
    (foldl (λ a var, delete var a)
       (foldl (λ a var, delete var a) (delete "pg_num" args) POOL_PROPERTIES)
       (POOL_QUOTA_PROPERTIES.*1)) !! k
  = if decide (k ∈ pool_known) then None else args !! k.
Proof.
  unfold pool_known.
  destruct (decide (k = "name")) as [->|Hname].
  { rewrite lookup_delete_eq. by rewrite decide_True by (by left). }
  rewrite lookup_delete_ne by done. rewrite !lookup_foldl_delete.
  destruct (decide (k ∈ POOL_QUOTA_PROPERTIES.*1)) as [Hq|Hq].
  { rewrite decide_True; [done|]. rewrite !elem_of_app. auto. }
  destruct (decide (k ∈ POOL_PROPERTIES)) as [Hp|Hp].
  { rewrite decide_True; [done|]. rewrite !elem_of_app. auto. }
  destruct (decide (k = "pg_num")) as [->|Hpg].
  { rewrite lookup_delete_eq. rewrite decide_True; [done|]. by right; left. }
  rewrite lookup_delete_ne by done.
  rewrite decide_False; [done|].
  rewrite !elem_of_app, !elem_of_cons, elem_of_nil. tauto.
Qed.

Lemma Pool_post_folds (args : gmap string pyval) :
  foldl pool_quota_step
    (foldl pool_set_step (delete "pg_num" args, []) POOL_PROPERTIES)
    POOL_QUOTA_PROPERTIES
  = (foldl (λ a var, delete var a)
       (foldl (λ a var, delete var a) (delete "pg_num" args) POOL_PROPERTIES)
       (POOL_QUOTA_PROPERTIES.*1),
     pool_settings args).
Proof.
  rewrite pool_set_fold; [|by compute_done|by compute_done].
  rewrite pool_quota_fold; [|by compute_done|by compute_done].
  f_equal. unfold pool_settings. rewrite app_nil_l. f_equal.
  - apply omap_ext_in. intros var Hin. unfold getitem.
    destruct (decide (var = "pg_num")) as [->|Hne].
    + by rewrite lookup_delete_eq.
    + by rewrite !lookup_delete_ne by done.
  - apply omap_ext_in. intros [var field] Hin. unfold getitem. cbn [fst snd].
    rewrite !lookup_foldl_delete.
    assert (var = "quota_max_bytes" ∨ var = "quota_max_objects") as Hv.
    { unfold POOL_QUOTA_PROPERTIES in Hin.
      apply elem_of_cons in Hin as [[= -> ->]|Hin]; [by left|].
      apply elem_of_cons in Hin as [[= -> ->]|Hin]; [by right|].
      by apply elem_of_nil in Hin. }
    destruct Hv as [-> | ->];
      rewrite !decide_False by compute_done; by rewrite !lookup_delete_ne by done.
Qed.

Lemma first_missing_required (args : gmap string pyval) :
  first_missing ["name"; "pg_num"] args
  = match args !! "name", args !! "pg_num" with
    | None, _ => Some "name"
    | Some _, None => Some "pg_num"
    | Some _, Some _ => None
    end.
Proof. simpl. by destruct (args !! "name"), (args !! "pg_num"). Qed.

(** X20: [Pool.post] carries out a request only if it names [name] and
    [pg_num] and nothing that the handler does not know; otherwise it
    answers with an error and leaves the module as it was.  A request that
    is carried out becomes one batch of two stages: the first holds the
    [osd pool create] alone, and it is the only command sent at
    submission; the second, still waiting, holds the settings: an
    [osd pool set] for each named property of [POOL_PROPERTIES] but
    [pg_num], in the order of that list, followed by the quotas.  No
    command ever sets [pg_num] again. *)
Theorem Pool_post_spec args (σ : @Mgr (gmap string pyval)) :
  let res := Pool_post args σ in
  let create : gmap string pyval :=
    <["prefix" := VStr "osd pool create"]>
      (<["pool" := getitem args "name"]> (<["pg_num" := getitem args "pg_num"]> ∅)) in
  (args !! "name" = None →
     res = (Ok (inl (Error ("Argument " +:+ dq +:+ "name" +:+ dq +:+ " is missing"))), σ))
  ∧ (is_Some (args !! "name") → args !! "pg_num" = None →
     res = (Ok (inl (Error ("Argument " +:+ dq +:+ "pg_num" +:+ dq +:+ " is missing"))), σ))
  ∧ (is_Some (args !! "name") → is_Some (args !! "pg_num") →
     (∃ k, (k ∉ pool_known) ∧ is_Some (args !! k)) →
     ∃ msg, res = (Ok (inl (Error msg)), σ))
  ∧ (is_Some (args !! "name") → is_Some (args !! "pg_num") →
     (∀ k, is_Some (args !! k) → k ∈ pool_known) →
     sends_ok 1 (faults σ) = true →
     res.1 = Ok (inl (Value (pretty (next_id σ))))
     ∧ requests res.2 = requests σ ++ [next_id σ]
     ∧ heap res.2 !! next_id σ
       = Some {| uuid := pretty (next_id σ);
                 running := [{| tag := pretty (next_id σ) +:+ ":0";
                                command := create; r := r_init |}];
                 waiting := [pool_settings args]; finished := []; failed := [] |}
     ∧ sent res.2 = sent σ ++ [(pretty (next_id σ) +:+ ":0", create)])
  ∧ Forall (λ c : gmap string pyval, c !! "var" ≠ Some (VStr "pg_num"))
           (pool_settings args).
Proof.
  intros res create. subst res.
  pose proof (Pool_post_folds args) as Hfolds.
  unfold Pool_post, catch, try_except. rewrite first_missing_required. cbv zeta.
  destruct (foldl pool_set_step (delete "pg_num" args, []) POOL_PROPERTIES)
    as [args2 cmds2].
  split_and!.
  - by intros ->.
  - by intros [v ->] ->.
  - intros [v1 Hn] [v2 Hp] (k & Hk & Hsome). rewrite Hn, Hp, Hfolds.
    rewrite decide_True; [by eexists|].
    intros Hsize%map_size_empty_iff.
    apply (f_equal (λ m, m !! k)) in Hsize.
    rewrite pool_leftover_lookup, decide_False, lookup_empty in Hsize by done.
    rewrite Hsize in Hsome. by destruct Hsome.
  - intros [v1 Hn] [v2 Hp] Hknown Hok. rewrite Hn, Hp, Hfolds.
    rewrite decide_False.
    + unfold fmap, M_fmap.
      rewrite <-(app_comm_cons [] _ [_]), app_nil_l.
      rewrite submit_request_ok_eq by done. simpl.
      rewrite lookup_insert_eq. by split_and!.
    + intros Hsize. apply Hsize. apply map_size_empty_iff, map_eq. intros k.
      rewrite pool_leftover_lookup, lookup_empty. case_decide as Hk; [done|].
      destruct (args !! k) eqn:Hargs; [|done]. destruct Hk. apply Hknown. by eexists.
  - apply Forall_forall. intros c. unfold pool_settings.
    rewrite elem_of_app, !list_elem_of_omap.
    intros [(var & _ & Hc)|([var field] & _ & Hc)].
    + case_decide as Hvar; [done|].
      destruct (args !! var) as [v|]; simplify_eq/=.
      unfold pool_set_command.
      rewrite lookup_insert_ne, lookup_insert_ne, lookup_insert_eq by done.
      congruence.
    + simpl in Hc. destruct (args !! var) as [v|]; simplify_eq/=.
      unfold pool_quota_command.
      by rewrite !lookup_insert_ne, lookup_empty by done.
Qed.

End Endpoints.

(** * Concrete runs of the registry and of the endpoints *)

Lemma run_sends_each_command_witness :
  sends_ok 2 (faults (@Module_init string [false; false; true])) = true
  ∧ ∃ results σ',
      run 0 ["A"; "B"] "7" (Module_init [false; false; true]) = (Ok results, σ')
      ∧ map command results = ["A"; "B"]
      ∧ map tag results = (λ i : nat, "7" +:+ ":" +:+ pretty i) <$> seq 0 2
      ∧ Forall (λ x, r x = 0%Z) results
      ∧ sent σ' = [] ++ zip (map tag results) ["A"; "B"]
      ∧ faults σ' = drop 2 [false; false; true]
      ∧ log σ' = [] ∧ heap σ' = ∅ ∧ requests σ' = [].
Proof.
  split; [reflexivity|].
  exact (run_sends_each_command 0 (Module_init [false; false; true]) ["A"; "B"] "7"
           eq_refl).
Defined.

Lemma run_partial_dispatch_witness :
  let σ := @Module_init string [false; true; false] in
  faults σ = replicate 1 false ++ true :: [false]
  ∧ 1 < length ["A"; "B"; "C"]
  ∧ (run 0 ["A"; "B"; "C"] "7" σ).1 = Raise SendError
  ∧ sent (run 0 ["A"; "B"; "C"] "7" σ).2
    = sent σ ++ zip ((λ i : nat, "7" +:+ ":" +:+ pretty i) <$> seq 0 1)
                    (take 1 ["A"; "B"; "C"])
  ∧ faults (run 0 ["A"; "B"; "C"] "7" σ).2 = [false]
  ∧ log (run 0 ["A"; "B"; "C"] "7" σ).2 = log σ
  ∧ heap (run 0 ["A"; "B"; "C"] "7" σ).2 = heap σ
  ∧ requests (run 0 ["A"; "B"; "C"] "7" σ).2 = requests σ.
Proof.
  intros σ. split; [reflexivity|]. split; [simpl; lia|].
  apply (run_partial_dispatch 0 σ ["A"; "B"; "C"] "7" 1 [false]); [reflexivity|simpl; lia].
Defined.

(** Two batches; the first runs ["A"] and ["B"] with ["C"] waiting. *)
Lemma completion_resolves_its_invocation_witness :
  let σ := do_events 0 [Submit [["A"; "B"]; ["C"]]; Submit [["D"]]] (@Module_init string []) in
  let b := {| uuid := "0";
              running := [{| tag := "0:0"; command := "A"; r := 0 |};
                          {| tag := "0:1"; command := "B"; r := 0 |}];
              waiting := [["C"]]; finished := []; failed := [] |} in
  let σ' := exec (OnCompletion 0 0%N 1 (-5)) σ in
  registry_ok σ
  ∧ 0%N ∈ requests σ
  ∧ heap σ !! 0%N = Some b
  ∧ requests σ' = requests σ
  ∧ (∀ y, y ≠ 0%N → heap σ' !! y = heap σ !! y)
  ∧ ∃ b', heap σ' !! 0%N = Some b'
      ∧ uuid b' = "0"
      ∧ finished b' = []
      ∧ failed b' = [{| tag := "0:1"; command := "B"; r := -5 |}]
      ∧ running b' = [{| tag := "0:0"; command := "A"; r := 0 |}]
      ∧ waiting b' = [["C"]].
Proof.
  intros σ b σ'.
  assert (registry_ok σ) as Hreg by apply do_events_registry_ok, Module_init_registry_ok.
  assert (0%N ∈ requests σ) as Hin by (by left).
  split; [exact Hreg|]. split; [exact Hin|]. split; [reflexivity|].
  exact (completion_resolves_its_invocation 0 σ 0%N b 1
           {| tag := "0:1"; command := "B"; r := 0 |} (-5)%Z Hreg Hin eq_refl eq_refl).
Defined.

Lemma idle_batch_is_frozen_witness :
  let σ := do_events 0 [Submit []; Submit [["A"]]] (@Module_init string []) in
  let b := {| uuid := "0"; running := []; waiting := []; finished := []; failed := [] |} in
  let es := [Completion 1%N 0 0%Z; Notify "command" "0:0"; Submit [["B"]]; Sweep;
             Cancel "0"] in
  heap σ !! 0%N = Some b
  ∧ (0 < next_id σ)%N
  ∧ heap (do_events 0 es σ) !! 0%N = Some b.
Proof.
  intros σ b es. split; [reflexivity|]. split; [reflexivity|].
  exact (idle_batch_is_frozen 0 σ 0%N b es eq_refl eq_refl eq_refl).
Defined.

(** The second send raises while the batch advances to its second stage;
    a third stage is left behind. *)
Lemma advance_failure_skips_stage_witness :
  let σ := do_events 0 [Submit [["A"]; ["B"]; ["C"]]] (@Module_init string [false; true]) in
  let A := {| tag := "0:0"; command := "A"; r := 0 |} in
  let b := {| uuid := "0"; running := [A]; waiting := [["B"]; ["C"]];
              finished := []; failed := [] |} in
  let b' := {| uuid := "0"; running := []; waiting := [["C"]];
               finished := [A]; failed := [] |} in
  let σ' := exec (notify 0 "command" "0:0") σ in
  let es := [Notify "command" "0:0"; Completion 0%N 0 0%Z; Submit [["D"]]] in
  claimants σ "0:0" = [0%N]
  ∧ heap σ !! 0%N = Some b
  ∧ sends_ok 1 (faults σ) = false
  ∧ (notify 0 "command" "0:0" σ).1 = Ok tt
  ∧ last (log σ') = Some (LogError SendError)
  ∧ heap σ' !! 0%N = Some b'
  ∧ heap (do_events 0 es σ') !! 0%N = Some b'
  ∧ get_state b' = "pending".
Proof.
  intros σ A b b' σ' es.
  split; [reflexivity|]. split; [reflexivity|]. split; [reflexivity|].
  destruct (advance_failure_skips_stage 0 σ "0:0" 0%N b A ["B"] [["C"]] es
              eq_refl eq_refl eq_refl eq_refl eq_refl eq_refl) as (H1 & H2 & H3 & H4).
  split; [exact H1|]. split; [exact H2|]. split; [exact H3|]. split; [exact H4|].
  reflexivity.
Defined.

Lemma Request_get_lists_states_witness :
  let σ := do_events 0 [Submit []; Submit [["A"]]] (@Module_init string []) in
  registry_ok σ
  ∧ ∃ states, Request_get σ = (Ok (inl states), σ)
      ∧ ∀ u s, states !! u = Some s
               ↔ ∃ x b, x ∈ requests σ ∧ heap σ !! x = Some b
                        ∧ uuid b = u ∧ get_state b = s.
Proof.
  intros σ.
  assert (registry_ok σ) as Hreg by apply do_events_registry_ok, Module_init_registry_ok.
  split; [exact Hreg|]. exact (Request_get_lists_states σ Hreg).
Defined.

Lemma sweep_leaves_pending_witness :
  let σ := do_events 0 [Submit []; Submit [["A"]]; Submit []] (@Module_init string []) in
  let σ1 := exec Request_delete σ in
  registry_ok σ
  ∧ requests σ1 = [1%N]
  ∧ ∃ states, Request_get σ1 = (Ok (inl states), σ1)
      ∧ (∀ u s, states !! u = Some s → s = "pending")
      ∧ (∀ x b, x ∈ requests σ1 → heap σ1 !! x = Some b
                → states !! uuid b = Some "pending").
Proof.
  intros σ σ1.
  assert (registry_ok σ) as Hreg by apply do_events_registry_ok, Module_init_registry_ok.
  split; [exact Hreg|]. split; [reflexivity|]. exact (sweep_leaves_pending 0 σ Hreg).
Defined.

Lemma RequestUuid_get_snapshot_witness :
  let σ := do_events 0 [Submit [["A"; "B"]]] (@Module_init string []) in
  let s := {| snap_uuid := "0"; snap_running := ["A"; "B"]; snap_finished := [];
              snap_waiting := []; snap_failed := []; snap_is_waiting := false;
              snap_is_finished := false; snap_has_failed := false |} in
  RequestUuid_get σ "0" = GetSnapshot s
  ∧ snap_waiting s = [] ∧ snap_is_waiting s = false
  ∧ ∃ x b, x ∈ requests σ ∧ heap σ !! x = Some b ∧ uuid b = "0"
           ∧ waiting b = []
           ∧ snap_uuid s = "0"
           ∧ snap_running s = map command (running b)
           ∧ snap_finished s = map command (finished b)
           ∧ snap_failed s = map command (failed b)
           ∧ snap_is_finished s = is_finished b
           ∧ snap_has_failed s = has_failed b.
Proof.
  intros σ s. split; [reflexivity|].
  exact (RequestUuid_get_snapshot σ "0" s eq_refl).
Defined.

(** A batch of two stages cannot be inspected while the second waits. *)
Lemma RequestUuid_get_spec_witness :
  let σ := do_events 0 [Submit [["A"]; ["B"]]] (@Module_init string []) in
  let b := {| uuid := "0"; running := [{| tag := "0:0"; command := "A"; r := 0 |}];
              waiting := [["B"]]; finished := []; failed := [] |} in
  registry_ok σ
  ∧ 0%N ∈ requests σ
  ∧ heap σ !! 0%N = Some b
  ∧ RequestUuid_get σ "0" = GetRaised "command".
Proof.
  intros σ b.
  assert (registry_ok σ) as Hreg by apply do_events_registry_ok, Module_init_registry_ok.
  assert (0%N ∈ requests σ) as Hin by (by left).
  split; [exact Hreg|]. split; [exact Hin|]. split; [reflexivity|].
  exact (proj1 (RequestUuid_get_spec σ Hreg) 0%N b Hin eq_refl).
Defined.

Lemma RequestUuid_delete_spec_witness :
  let σ := do_events 0 [Submit [["A"]]; Submit [["B"]]; Submit [["C"]]]
             (@Module_init string []) in
  let b := {| uuid := "1"; running := [{| tag := "1:0"; command := "B"; r := 0 |}];
              waiting := []; finished := []; failed := [] |} in
  refs_valid σ
  ∧ requests σ = [0%N] ++ 1%N :: [2%N]
  ∧ heap σ !! 1%N = Some b
  ∧ RequestUuid_delete "1" σ = (Ok (inl true), set_requests ([0%N] ++ [2%N]) σ).
Proof.
  intros σ b.
  assert (refs_valid σ) as Hv.
  { apply registry_ok_refs_valid, (do_events_registry_ok 0), Module_init_registry_ok. }
  split; [exact Hv|]. split; [reflexivity|]. split; [reflexivity|].
  apply (proj2 (RequestUuid_delete_spec σ "1" Hv) [0%N] 1%N [2%N] b);
    [reflexivity|reflexivity|reflexivity|].
  intros y c ->%list_elem_of_singleton [= <-]. discriminate.
Defined.


Lemma submit_request_spec_witness :
  let σ := do_events 0 [Submit [["Z"]]] (@Module_init string []) in
  let res := submit_request 0 [["A"; "B"]; ["C"]] σ in
  sends_ok 2 (faults σ) = true
  ∧ res.1 = Ok "1"
  ∧ requests res.2 = [0%N; 1%N]
  ∧ heap res.2
    = <[1%N := {| uuid := "1";
                  running := [{| tag := "1:0"; command := "A"; r := 0 |};
                              {| tag := "1:1"; command := "B"; r := 0 |}];
                  waiting := [["C"]]; finished := []; failed := [] |}]> (heap σ)
  ∧ sent res.2 = sent σ ++ [("1:0", "A"); ("1:1", "B")]
  ∧ next_id res.2 = 2%N
  ∧ log res.2 = log σ.
Proof.
  intros σ res. split; [reflexivity|].
  exact (submit_request_spec 0 σ [["A"; "B"]; ["C"]] eq_refl).
Defined.

(** An OSD that is up, asked to scrub. *)
Lemma OsdIdCommandId_post_spec_witness :
  let osds := [mkOsd 2 0; mkOsd 3 1] in
  let σ := @Module_init (gmap string pyval) [] in
  let cmd : gmap string pyval :=
    <["prefix" := VStr "osd scrub"]> (<["who" := VStr "3"]> ∅) in
  let res := OsdIdCommandId_post 0 osds 3 "scrub" σ in
  OsdIdCommand_get osds 3 = Value ["scrub"; "deep_scrub"; "repair"]
  ∧ OsdIdCommand_get osds 2 = Value []
  ∧ res.1 = Ok (inl (Value "0"))
  ∧ requests res.2 = [0%N]
  ∧ heap res.2 !! 0%N
    = Some {| uuid := "0";
              running := [{| tag := "0:0"; command := cmd; r := 0 |}];
              waiting := []; finished := []; failed := [] |}
  ∧ sent res.2 = [("0:0", cmd)]
  ∧ ∃ msg, OsdIdCommandId_post 0 osds 2 "scrub" σ = (Ok (inl (Error msg)), σ).
Proof.
  intros osds σ cmd res.
  destruct (OsdIdCommandId_post_spec 0 osds 3 "scrub" σ) as (_ & Hok & _).
  destruct (OsdIdCommandId_post_spec 0 osds 2 "scrub" σ) as (Hno & _ & _).
  split; [reflexivity|]. split; [reflexivity|].
  assert (∃ cmds, OsdIdCommand_get osds 3 = Value cmds ∧ "scrub" ∈ cmds) as Hacc.
  { exists ["scrub"; "deep_scrub"; "repair"]. split; [reflexivity|]. by left. }
  destruct (Hok Hacc eq_refl) as (H1 & H2 & H3 & H4).
  split; [exact H1|]. split; [exact H2|]. split; [exact H3|]. split; [exact H4|].
  apply Hno. intros (cmds & [= <-] & Hin). by apply elem_of_nil in Hin.
Defined.

Lemma OsdId_patch_spec_witness :
  let σ := @Module_init (gmap string pyval) [] in
  let args : gmap string pyval := <["up" := VBool true]> (<["in" := VBool true]> ∅) in
  OsdId_patch 0 3 args σ
  = (Ok (inl (Error "It is not valid to set a down OSD to be up")), σ)
  ∧ (OsdId_patch 0 3 ∅ σ).1 = Ok (inl (Value "0"))
  ∧ sent (OsdId_patch 0 3 ∅ σ).2 = []
  ∧ ∃ b, heap (OsdId_patch 0 3 ∅ σ).2 !! 0%N = Some b
         ∧ is_finished b = true ∧ get_state b = "success".
Proof.
  intros σ args.
  destruct (OsdId_patch_spec 0 3 args σ) as [Hup _].
  destruct (OsdId_patch_spec 0 3 ∅ σ) as [_ Hnone].
  split; [exact (Hup (VBool true) eq_refl eq_refl)|].
  destruct (Hnone eq_refl eq_refl eq_refl) as (H1 & _ & H3 & H4).
  split; [exact H1|]. split; [exact H3|]. exact H4.
Defined.

(** Python's [str], on the values of this example. *)
Definition example_str (v : pyval) : string :=
  match v with
  | VInt z => pretty z
  | VStr s => s
  | _ => ""
  end.

Lemma Pool_post_spec_witness :
  let σ := @Module_init (gmap string pyval) [] in
  let args : gmap string pyval :=
    <["name" := VStr "rbd"]> (<["pg_num" := VInt 8]> (<["size" := VInt 3]>
      (<["quota_max_bytes" := VInt 100]> ∅))) in
  let create : gmap string pyval :=
    <["prefix" := VStr "osd pool create"]>
      (<["pool" := VStr "rbd"]> (<["pg_num" := VInt 8]> ∅)) in
  let res := Pool_post 0 example_str (λ _, "") args σ in
  pool_settings example_str args
  = [ <["prefix" := VStr "osd pool set"]>
        (<["pool" := VStr "rbd"]> (<["var" := VStr "size"]> (<["val" := VInt 3]> ∅)));
      <["prefix" := VStr "osd pool set-quota"]>
        (<["pool" := VStr "rbd"]> (<["field" := VStr "max_bytes"]>
           (<["val" := VStr "100"]> ∅))) ]
  ∧ res.1 = Ok (inl (Value "0"))
  ∧ requests res.2 = [0%N]
  ∧ heap res.2 !! 0%N
    = Some {| uuid := "0";
              running := [{| tag := "0:0"; command := create; r := 0 |}];
              waiting := [pool_settings example_str args];
              finished := []; failed := [] |}
  ∧ sent res.2 = [("0:0", create)]
  ∧ ∃ msg, Pool_post 0 example_str (λ _, "") (<["colour" := VStr "red"]> args) σ
           = (Ok (inl (Error msg)), σ).
Proof.
  intros σ args create res.
  destruct (Pool_post_spec 0 example_str (λ _, "") args σ) as (_ & _ & _ & Hok & _).
  destruct (Pool_post_spec 0 example_str (λ _, "") (<["colour" := VStr "red"]> args) σ)
    as (_ & _ & Hbad & _).
  split; [by vm_compute|].
  assert (∀ k, is_Some (args !! k) → k ∈ pool_known) as Hknown.
  { intros k [v Hk]. subst args.
    repeat (apply lookup_insert_Some in Hk as [[<- _]|[_ Hk]]; [by compute_done|]).
    by rewrite lookup_empty in Hk. }
  destruct (Hok (ex_intro _ _ eq_refl) (ex_intro _ _ eq_refl) Hknown eq_refl)
    as (H1 & H2 & H3 & H4).
  split; [exact H1|]. split; [exact H2|]. split; [exact H3|]. split; [exact H4|].
  apply Hbad.
  - by eexists.
  - by eexists.
  - exists "colour". split; [by compute_done|]. by eexists.
Defined.
